(** * metaknowledge: record-set algebra and network construction

    A shallow embedding of [metaknowledge/recordCollection.py]: the
    [RecordCollection] container (a Python [set] of records with a [bad]
    flag, an [errors] dict and a [name]), the citation filter, the
    network builders on top of networkx 1.x graphs, core expansion and
    the citation statistics.

    Python values that the code only passes around are kept as data:
    a dict used as a finite map is a [gmap], the set of records a [gset],
    a dict whose insertion order can be observed is an association list,
    and a raised exception is the [Raise] result. *)

From Stdlib Require Import Ascii.
From stdpp Require Import ssreflect gmap strings list fin_maps pretty.

Set Default Proof Using "Type".
#[local] Set Warnings "-clear-no-such-hyp".
Open Scope string_scope.
Open Scope Z_scope.

(** ** Python values *)

(** The scalar values that occur as node keys and attribute values. *)
Inductive pyval :=
  | PNone
  | PBool (b : bool)
  | PInt (z : Z)
  | PStr (s : string).

#[global] Instance pyval_eq_dec : EqDecision pyval.
Proof. solve_decision. Defined.

(** Python truthiness, as used by [if x:] and [not x]. *)
Definition truthy (v : pyval) : bool :=
  match v with
  | PNone => false
  | PBool b => b
  | PInt z => negb (z =? 0)
  | PStr s => negb (bool_decide (s = ""))
  end.

(** [str(v)] for a scalar. *)
Definition py_str (v : pyval) : string :=
  match v with
  | PNone => "None"
  | PBool true => "True"
  | PBool false => "False"
  | PInt z => pretty z
  | PStr s => s
  end.

Definition of_opt_str (o : option string) : pyval :=
  match o with Some s => PStr s | None => PNone end.

Definition of_opt_int (o : option Z) : pyval :=
  match o with Some z => PInt z | None => PNone end.

(** The exception classes raised by the module. *)
Inductive exn :=
  | TypeError
  | RCTypeError
  | RCValueError
  | KeyError
  | IndexError
  | AttributeError
  | RuntimeError.

#[global] Instance exn_eq_dec : EqDecision exn.
Proof. solve_decision. Defined.

(** The error taxonomy of the specification (section 7), and the class of
    each exception in it: [RCTypeError] derives from [TypeError],
    [RCValueError] from [ValueError]. *)
Inductive spec_error := TypeMismatch | InvalidArgument | NotFound | OtherError.

Definition taxonomy (e : exn) : spec_error :=
  match e with
  | TypeError | RCTypeError => TypeMismatch
  | RCValueError => InvalidArgument
  | KeyError => NotFound
  | IndexError | AttributeError | RuntimeError => OtherError
  end.

Inductive result (A : Type) :=
  | Ok (a : A)
  | Raise (e : exn).
Arguments Ok {A} a.
Arguments Raise {A} e.

Definition bind {A B} (r : result A) (k : A → result B) : result B :=
  match r with Ok a => k a | Raise e => Raise e end.

Notation "'let*' x ':=' r 'in' k" := (bind r (fun x => k))
  (at level 10, x name, r at level 100, k at level 200).

(** ** Citations and records *)

(** Modelled from the spec: the [Citation] class (citation.py) is not part
    of the sources at hand.  Section 6 gives its contract: the attributes
    [author], [year], [journal], [V], [P], [misc], [original] and the
    methods [isAnonymous()], [isJournal()], [FullJournalName()]; the
    module also calls [ID()], [allButDOI()] and [str()].  A citation is
    kept as the record of what these return. *)
Record Citation := mkCitation {
  author : option string;
  year : option Z;
  journal : option string;
  V : option string;
  P : option string;
  misc : option string;
  original : string;
  isAnonymous : bool;
  isJournal : bool;
  ID : string;
  allButDOI : string;
  FullJournalName : option string;
  cite_str : string
}.

#[global] Instance Citation_eq_dec : EqDecision Citation.
Proof. solve_decision. Defined.

Definition Citation_to_tuple (c : Citation) :=
  (author c, year c, journal c, V c, P c, misc c, original c,
   isAnonymous c, isJournal c, ID c, allButDOI c, FullJournalName c, cite_str c).

Definition Citation_of_tuple t : Citation :=
  match t with
  | (a, y, j, v, p, m, o, an, ij, i, d, f, s) =>
      mkCitation a y j v p m o an ij i d f s
  end.

#[global] Instance Citation_countable : Countable Citation.
Proof.
  apply (inj_countable' Citation_to_tuple Citation_of_tuple).
  by intros [].
Defined.

(** The value stored under one tag of a record: a string, an integer or
    a list of strings. *)
Inductive fieldVal :=
  | FStr (s : string)
  | FInt (z : Z)
  | FList (l : list string).

#[global] Instance fieldVal_eq_dec : EqDecision fieldVal.
Proof. solve_decision. Defined.

Definition fieldVal_to_sum (t : fieldVal) : string + Z + list string :=
  match t with
  | FStr s => inl (inl s)
  | FInt z => inl (inr z)
  | FList l => inr l
  end.

Definition fieldVal_of_sum (t : string + Z + list string) : fieldVal :=
  match t with
  | inl (inl s) => FStr s
  | inl (inr z) => FInt z
  | inr l => FList l
  end.

#[global] Instance fieldVal_countable : Countable fieldVal.
Proof.
  apply (inj_countable' fieldVal_to_sum fieldVal_of_sum).
  by intros [].
Defined.

(** What [Record.get] returns: [None], a stored value, or the list of
    citations of the record. *)
Inductive tagVal :=
  | TNone
  | TStr (s : string)
  | TInt (z : Z)
  | TList (l : list string)
  | TCites (l : list Citation).

(** Modelled from the spec: the [Record] class (record.py) is not part of
    the sources at hand.  Section 6 gives its contract: [id], [bad],
    [get(tag)], [createCitation()] and [createCitation(multiCite=True)].
    The citation list is the field read by [get('citations')]; every
    other tag holds a string, an integer or a list of strings.  Two
    records are equal when all of this agrees. *)
Record Rec := mkRec {
  Rec_id : string;
  Rec_bad : bool;
  Rec_tags : gmap string fieldVal;
  citations : option (list Citation);
  createCitation : Citation;
  createCitationMulti : list Citation
}.

#[global] Instance Rec_eq_dec : EqDecision Rec.
Proof. solve_decision. Defined.

Definition Rec_to_tuple (r : Rec) :=
  (Rec_id r, Rec_bad r, Rec_tags r, citations r, createCitation r,
   createCitationMulti r).

Definition Rec_of_tuple t : Rec :=
  match t with (i, b, g, cs, c, m) => mkRec i b g cs c m end.

#[global] Instance Rec_countable : Countable Rec.
Proof.
  apply (inj_countable' Rec_to_tuple Rec_of_tuple).
  by intros [].
Defined.

(** [R.get(tag)]: the value of the tag, [None] when the record lacks it. *)
Definition get (R : Rec) (tag : string) : tagVal :=
  if decide (tag = "citations") then
    match citations R with Some l => TCites l | None => TNone end
  else
    match Rec_tags R !! tag with
    | Some (FStr s) => TStr s
    | Some (FInt z) => TInt z
    | Some (FList l) => TList l
    | None => TNone
    end.

(** ** The record collection *)

Record RecordCollection := mkRC {
  bad : bool;
  errors : gmap string string;
  name : string;
  _Records : gset Rec
}.

(** [dict.update]: the entries of [other] overwrite those of [d]. *)
Definition update (d other : gmap string string) : gmap string string :=
  other ∪ d.

(** [RecordCollection(inCollection, name = nm, quietStart = True)] for an
    iterable of records. *)
Definition RecordCollection_init (inCollection : gset Rec) (nm : string) : RecordCollection :=
  {| bad := false; errors := ∅; name := nm; _Records := inCollection |}.

(** [RecordCollection()]. *)
Definition RecordCollection_empty : RecordCollection :=
  {| bad := false; errors := ∅; name := "Empty"; _Records := ∅ |}.

(** [__str__], which is what ['{}'.format] prints for a collection. *)
Definition __str__ (self : RecordCollection) : string :=
  "RecordCollection(" +:+ name self +:+ ")".

Definition __len__ (self : RecordCollection) : nat := size (_Records self).

Definition __le__ (self other : RecordCollection) : bool :=
  (__len__ self <=? __len__ other)%nat.

Definition __ge__ (self other : RecordCollection) : bool :=
  (__len__ other <=? __len__ self)%nat.

Definition __eq__ (self other : RecordCollection) : bool :=
  bool_decide (_Records self = _Records other).

(** The tail shared by the eight operators:
    [if other.bad or self.bad: target.bad = True; target.errors.update(other.errors)]. *)
Definition propagate (self other target : RecordCollection) : RecordCollection :=
  if bad other || bad self then
    {| bad := true; errors := update (errors target) (errors other);
       name := name target; _Records := _Records target |}
  else target.

Definition set_Records (self : RecordCollection) (s : gset Rec) : RecordCollection :=
  {| bad := bad self; errors := errors self; name := name self; _Records := s |}.

(** In-place operators: [self] is mutated and returned. *)
Definition __ior__ (self other : RecordCollection) : RecordCollection :=
  propagate self other (set_Records self (_Records self ∪ _Records other)).

Definition __iand__ (self other : RecordCollection) : RecordCollection :=
  propagate self other (set_Records self (_Records self ∩ _Records other)).

Definition __ixor__ (self other : RecordCollection) : RecordCollection :=
  propagate self other
    (set_Records self ((_Records self ∖ _Records other) ∪ (_Records other ∖ _Records self))).

Definition __isub__ (self other : RecordCollection) : RecordCollection :=
  propagate self other (set_Records self (_Records self ∖ _Records other)).

(** Pure operators: a fresh collection is built by the constructor. *)
Definition __or__ (self other : RecordCollection) : RecordCollection :=
  propagate self other
    (RecordCollection_init (_Records self ∪ _Records other)
       (__str__ self +:+ " | " +:+ __str__ other)).

Definition __and__ (self other : RecordCollection) : RecordCollection :=
  propagate self other
    (RecordCollection_init (_Records self ∩ _Records other)
       (__str__ self +:+ " & " +:+ __str__ other)).

Definition __sub__ (self other : RecordCollection) : RecordCollection :=
  propagate self other
    (RecordCollection_init (_Records self ∖ _Records other)
       (__str__ self +:+ " - " +:+ __str__ other)).

Definition __xor__ (self other : RecordCollection) : RecordCollection :=
  propagate self other
    (RecordCollection_init
       ((_Records self ∖ _Records other) ∪ (_Records other ∖ _Records self))
       (__str__ self +:+ " ^ " +:+ __str__ other)).

(** ** Strings *)

(** [str.upper] on ASCII text: the letters [a]..[z] move to [A]..[Z]. *)
Definition upper_ascii (a : ascii) : ascii :=
  let n := N_of_ascii a in
  if ((97 <=? n) && (n <=? 122))%N then ascii_of_N (n - 32) else a.

Fixpoint upper (s : string) : string :=
  match s with
  | EmptyString => EmptyString
  | String a t => String (upper_ascii a) (upper t)
  end.

(** [k in text] for strings. *)
Fixpoint contains (k text : string) : bool :=
  String.prefix k text ||
  match text with
  | EmptyString => false
  | String _ t => contains k t
  end.

(** [s.replace(',', '')]. *)
Fixpoint replace_comma (s : string) : string :=
  match s with
  | EmptyString => EmptyString
  | String a t => if decide (a = ","%char) then replace_comma t
                  else String a (replace_comma t)
  end.

(** [', '.join(l)]. *)
Fixpoint join (l : list string) : string :=
  match l with
  | [] => ""
  | [s] => s
  | s :: t => s +:+ ", " +:+ join t
  end.

(** [list(s)] for a string: its characters. *)
Fixpoint chars (s : string) : list string :=
  match s with
  | EmptyString => []
  | String a t => String a EmptyString :: chars t
  end.

(** ** Dicts whose order can be observed *)

Section alist.
Context {K V : Type} `{EqDecision K}.

Fixpoint alist_get (k : K) (l : list (K * V)) : option V :=
  match l with
  | [] => None
  | (k', v) :: t => if decide (k = k') then Some v else alist_get k t
  end.

(** [d[k] = v]: an existing key keeps its place, a new key goes last. *)
Fixpoint alist_set (k : K) (v : V) (l : list (K * V)) : list (K * V) :=
  match l with
  | [] => [(k, v)]
  | (k', v') :: t =>
      if decide (k = k') then (k, v) :: t else (k', v') :: alist_set k v t
  end.

Definition alist_mem (k : K) (l : list (K * V)) : bool :=
  match alist_get k l with Some _ => true | None => false end.
End alist.

(** An attribute dict: string keys, scalar values. *)
Definition dict := list (string * pyval).

Definition dict_update (d other : dict) : dict :=
  fold_left (fun acc kv => alist_set kv.1 kv.2 acc) other d.

(** ** networkx 1.x graphs

    [nx.Graph] and [nx.DiGraph] keep a dict [node] from a node to its
    attribute dict and a dict of dicts [adj] ([succ] for a DiGraph) from
    a node to its neighbours and from there to the edge's data dict.
    Attribute dicts are objects: [add_node(n, attr_dict = d)] stores [d]
    itself for a new node, and the two directions of an undirected edge
    share one data dict.  Both kinds of dict live in a store and are
    referred to by their index. *)
Record Graph := mkGraph {
  directed : bool;
  node : list (pyval * nat);
  adj : list (pyval * list (pyval * nat));
  ndata : list dict;
  edata : list dict
}.

Definition nx_Graph : Graph := mkGraph false [] [] [] [].
Definition nx_DiGraph : Graph := mkGraph true [] [] [] [].

Definition set_node (G : Graph) (x : list (pyval * nat)) : Graph :=
  mkGraph (directed G) x (adj G) (ndata G) (edata G).
Definition set_adj (G : Graph) (x : list (pyval * list (pyval * nat))) : Graph :=
  mkGraph (directed G) (node G) x (ndata G) (edata G).
Definition set_ndata (G : Graph) (x : list dict) : Graph :=
  mkGraph (directed G) (node G) (adj G) x (edata G).
Definition set_edata (G : Graph) (x : list dict) : Graph :=
  mkGraph (directed G) (node G) (adj G) (ndata G) x.

(** A dict object is created: it gets the next free index. *)
Definition new_dict (G : Graph) (d : dict) : Graph * nat :=
  (set_ndata G (ndata G ++ [d])%list, length (ndata G)).

(** [n in G]. *)
Definition has_node (G : Graph) (n : pyval) : bool := alist_mem n (node G).

(** The attribute dict of a node, [G.node[n]]. *)
Definition node_dict (G : Graph) (n : pyval) : option dict :=
  r ← alist_get n (node G); ndata G !! r.

(** [G.add_node(n, attr_dict = d)] where [d] is the dict object [r]: a
    new node gets the object itself, an old node has its dict updated. *)
Definition add_node (G : Graph) (n : pyval) (r : nat) : Graph :=
  match alist_get n (node G) with
  | None => set_node (set_adj G (alist_set n [] (adj G))) (alist_set n r (node G))
  | Some r' =>
      set_ndata G (<[r' := dict_update (default [] (ndata G !! r'))
                                       (default [] (ndata G !! r))]> (ndata G))
  end.

(** The neighbours of a node, [G[u]] or [G.edge[u]]. *)
Definition nbrs (G : Graph) (u : pyval) : option (list (pyval * nat)) :=
  alist_get u (adj G).

(** [G.has_edge(u, v)]. *)
Definition has_edge (G : Graph) (u v : pyval) : bool :=
  match nbrs G u with
  | Some l => alist_mem v l
  | None => false
  end.

(** The data dict of an edge, [G.edge[u][v]]. *)
Definition edge_ref (G : Graph) (u v : pyval) : option nat :=
  l ← nbrs G u; alist_get v l.

Definition edge_dict (G : Graph) (u v : pyval) : option dict :=
  r ← edge_ref G u v; edata G !! r.

(** [adj[u][v] = r]. *)
Definition set_nbr (a : list (pyval * list (pyval * nat))) (u v : pyval) (r : nat) :=
  alist_set u (alist_set v r (default [] (alist_get u a))) a.

(** The first lines of [add_edge]: an endpoint that is no node yet
    becomes one, with an empty attribute dict. *)
Definition ensure_node (G : Graph) (n : pyval) : Graph :=
  if has_node G n then G
  else
    let '(G1, r) := new_dict G [] in
    set_node (set_adj G1 (alist_set n [] (adj G1))) (alist_set n r (node G1)).

(** [G.add_edge(u, v, attr_dict = attr)]: the data dict of the edge (a new
    one when the edge is new) is updated with [attr] and stored under
    [adj[u][v]] and, in an undirected graph, under [adj[v][u]]. *)
Definition add_edge (G : Graph) (u v : pyval) (attr : dict) : Graph :=
  let G1 := ensure_node (ensure_node G u) v in
  let '(G2, r) :=
    match edge_ref G1 u v with
    | Some r =>
        (set_edata G1 (<[r := dict_update (default [] (edata G1 !! r)) attr]> (edata G1)), r)
    | None =>
        (set_edata G1 (edata G1 ++ [dict_update [] attr])%list, length (edata G1))
    end in
  let a1 := set_nbr (adj G2) u v r in
  set_adj G2 (if directed G2 then a1 else set_nbr a1 v u r).

(** [d[key] += 1] on a dict: [KeyError] without the key. *)
Definition dict_incr (d : dict) (key : string) : result dict :=
  match alist_get key d with
  | Some (PInt z) => Ok (alist_set key (PInt (z + 1)) d)
  | Some (PBool b) => Ok (alist_set key (PInt ((if b then 1 else 0) + 1)) d)
  | Some _ => Raise TypeError
  | None => Raise KeyError
  end.

(** [G.node[n]['count'] += 1]. *)
Definition incr_count (G : Graph) (n : pyval) : result Graph :=
  match alist_get n (node G) with
  | None => Raise KeyError
  | Some r =>
      let* d := dict_incr (default [] (ndata G !! r)) "count" in
      Ok (set_ndata G (<[r := d]> (ndata G)))
  end.

(** [G.edge[u][v]['weight'] += 1]. *)
Definition incr_weight (G : Graph) (u v : pyval) : result Graph :=
  match edge_ref G u v with
  | None => Raise KeyError
  | Some r =>
      let* d := dict_incr (default [] (edata G !! r)) "weight" in
      Ok (set_edata G (<[r := d]> (edata G)))
  end.

(** [try: G.edge[u][v]['weight'] += 1] / [except KeyError: G.add_edge(u, v, weight = 1)]. *)
Definition bump_edge (G : Graph) (u v : pyval) : result Graph :=
  match incr_weight G u v with
  | Ok G' => Ok G'
  | Raise KeyError => Ok (add_edge G u v [("weight", PInt 1)])
  | Raise e => Raise e
  end.

(** [G.add_edges_from(ebunch)] for pairs. *)
Definition add_edges_from (G : Graph) (ebunch : list (pyval * pyval)) : Graph :=
  fold_left (fun g e => add_edge g e.1 e.2 []) ebunch G.

Definition number_of_nodes (G : Graph) : nat := length (node G).

(** The degree of a node: a self-loop counts twice. *)
Definition degree (e : pyval * list (pyval * nat)) : nat :=
  (length e.2 + (if alist_mem e.1 e.2 then 1 else 0))%nat.

(** [G.number_of_edges()]: half the sum of the degrees in a [Graph], the
    number of stored successors in a [DiGraph]. *)
Definition number_of_edges (G : Graph) : nat :=
  if directed G then sum_list (map (fun e => length e.2) (adj G))
  else (sum_list (map degree (adj G)) / 2)%nat.

(** The weight of an edge, [G.edge[u][v]['weight']]. *)
Definition edge_weight (G : Graph) (u v : pyval) : option pyval :=
  d ← edge_dict G u v; alist_get "weight" d.

(** The count of a node, [G.node[n]['count']]. *)
Definition node_count (G : Graph) (n : pyval) : option pyval :=
  d ← node_dict G n; alist_get "count" d.

(** ** Citation identity and the filter *)

(** The attributes of a citation that a node mode or key type names. *)
Inductive field := Fauthor | Fjournal | Fyear | Foriginal.

(** The node modes: ["full"], or one of the attribute names. *)
Inductive nodeType := full | by_field (f : field).

#[global] Instance field_eq_dec : EqDecision field.
Proof. solve_decision. Defined.
#[global] Instance nodeType_eq_dec : EqDecision nodeType.
Proof. solve_decision. Defined.

(** [allowedTypes = ["full", "original", "author", "journal", "year"]]. *)
Definition nodeType_of_string (s : string) : option nodeType :=
  if decide (s = "full") then Some full
  else if decide (s = "original") then Some (by_field Foriginal)
  else if decide (s = "author") then Some (by_field Fauthor)
  else if decide (s = "journal") then Some (by_field Fjournal)
  else if decide (s = "year") then Some (by_field Fyear)
  else None.

(** [getattr(citation, f)]. *)
Definition getattr (c : Citation) (f : field) : pyval :=
  match f with
  | Fauthor => of_opt_str (author c)
  | Fjournal => of_opt_str (journal c)
  | Fyear => of_opt_int (year c)
  | Foriginal => PStr (original c)
  end.

Definition makeID (citation : Citation) (nt : nodeType) : pyval :=
  match nt with
  | by_field f => getattr citation f
  | full => PStr (ID citation)
  end.

(** The [keyWords] argument: [None], a string or a list of strings. *)
Inductive keyWordsArg :=
  | KWNone
  | KWStr (s : string)
  | KWList (l : list string).

Definition keyWords_truthy (k : keyWordsArg) : bool :=
  match k with
  | KWNone => false
  | KWStr s => negb (bool_decide (s = ""))
  | KWList l => negb (bool_decide (l = []))
  end.

(** The [detailedInfo] / [detailedCore] argument: [None], a bool or an
    iterable of tags. *)
Inductive detailedArg :=
  | DNone
  | DBool (b : bool)
  | DTags (l : list string).

Section engine.
(** [normalizeToTag] comes from the tag tables of the WOS parser. *)
Variable normalizeToTag : string → string.
(** When two citations are the same dict key ([__hash__] and [__eq__]
    of [Citation]). *)
Variable cite_eqb : Citation → Citation → bool.
(** [str.upper], which Python defines for all of Unicode; [upper] above
    is what it does on ASCII text. *)
Variable str_upper : string → string.

(** A dict keyed by citations. *)
Fixpoint cdict_get {A} (c : Citation) (l : list (Citation * A)) : option A :=
  match l with
  | [] => None
  | (c', v) :: t => if cite_eqb c c' then Some v else cdict_get c t
  end.

(** [d[c] = v]: the first key object stays, the value is replaced. *)
Fixpoint cdict_set {A} (c : Citation) (v : A) (l : list (Citation * A)) :=
  match l with
  | [] => [(c, v)]
  | (c', v') :: t =>
      if cite_eqb c c' then (c', v) :: t else (c', v') :: cdict_set c v t
  end.

Definition cdict_mem {A} (c : Citation) (l : list (Citation * A)) : bool :=
  match cdict_get c l with Some _ => true | None => false end.

(** The keyword test of [filterCites]: [found]. *)
Definition found (keyWords : keyWordsArg) (c : Citation) : bool :=
  let citeString := str_upper (cite_str c) in
  match keyWords with
  | KWNone => false
  | KWStr s => contains (str_upper s) citeString
  | KWList l => existsb (fun k => contains (str_upper k) citeString) l
  end.

(** One turn of the loop of [filterCites]: is [c] appended? *)
Definition keepCite (nt : nodeType) (dropAnon dropNonJournals : bool)
    (keyWords : keyWordsArg) (coreCites : option (list Citation))
    (c : Citation) : bool :=
  if match nt with
     | full => false
     | by_field f => negb (truthy (getattr c f))
     end then false
  else if dropNonJournals && negb (isJournal c) then false
  else if dropAnon && isAnonymous c then false
  else if match coreCites with
          | Some (k :: ks) => negb (existsb (cite_eqb c) (k :: ks))
          | _ => false
          end then false
  else if keyWords_truthy keyWords then negb (found keyWords c)
  else true.

Fixpoint filterCites (cites : list Citation) (nt : nodeType)
    (dropAnon dropNonJournals : bool) (keyWords : keyWordsArg)
    (coreCites : option (list Citation)) : list Citation :=
  match cites with
  | [] => []
  | c :: rest =>
      let tl := filterCites rest nt dropAnon dropNonJournals keyWords coreCites in
      if keepCite nt dropAnon dropNonJournals keyWords coreCites c
      then c :: tl else tl
  end.

(** ** Node attributes *)

(** The [info] string of a core citation: one entry per tag whose value
    is a string or a list. *)
Fixpoint coreInfoVals (R : Rec) (coreValues : list string) : result (list string) :=
  match coreValues with
  | [] => Ok []
  | tag :: rest =>
      let* here :=
        match get R tag with
        | TStr s => Ok [replace_comma s]
        | TList (s :: _) => Ok [replace_comma s]
        | TList [] => Raise IndexError
        | TCites (_ :: _) => Raise AttributeError
        | TCites [] => Raise IndexError
        | TInt _ | TNone => Ok []
        end in
      let* tl := coreInfoVals R rest in
      Ok (here ++ tl)%list
  end.

Definition makeNodeTuple (citation : Citation) (idVal : pyval)
    (nodeInfo fullInfo : bool) (nt : nodeType) (count : bool)
    (coreCitesDict : list (Citation * Rec)) (coreValues : list string)
    : result dict :=
  let* d1 :=
    if nodeInfo then
      match nt with
      | full =>
          match coreValues with
          | _ :: _ =>
              match cdict_get citation coreCitesDict with
              | Some R =>
                  let* infoVals := coreInfoVals R coreValues in
                  Ok [("info", PStr (join infoVals)); ("inCore", PBool true)]
              | None =>
                  Ok [("info", PStr (allButDOI citation)); ("inCore", PBool false)]
              end
          | [] => Ok [("info", PStr (allButDOI citation))]
          end
      | by_field Fjournal =>
          if isJournal citation
          then Ok [("info", PStr (py_str (of_opt_str (FullJournalName citation))))]
          else Ok [("info", PStr "None")]
      | by_field Foriginal => Ok [("info", PStr (cite_str citation))]
      | by_field _ => Ok [("info", idVal)]
      end
    else Ok [] in
  let d2 := if fullInfo then alist_set "fullCite" (PStr (cite_str citation)) d1 else d1 in
  Ok (if count then alist_set "count" (PInt 1) d2 else d2).

(** ** addToNetwork *)

(** [if nID not in grph: grph.add_node( *makeNodeTuple(..))] /
    [elif count: grph.node[nID]['count'] += 1]. *)
Definition addCiteNode (grph : Graph) (n : Citation) (count : bool)
    (nt : nodeType) (nodeInfo fullInfo : bool)
    (coreCitesDict : list (Citation * Rec)) (coreValues : list string)
    (bump : bool) : result Graph :=
  let nID := makeID n nt in
  if negb (has_node grph nID) then
    let* d := makeNodeTuple n nID nodeInfo fullInfo nt count coreCitesDict coreValues in
    let '(g, r) := new_dict grph d in
    Ok (add_node g nID r)
  else if bump && count then incr_count grph nID
  else Ok grph.

(** The loop over [nds]; the graph and [idList] come back. *)
Fixpoint addCiteNodes (grph : Graph) (nds : list Citation) (count : bool)
    (nt : nodeType) (nodeInfo fullInfo : bool)
    (coreCitesDict : list (Citation * Rec)) (coreValues : list string)
    : result (Graph * list pyval) :=
  match nds with
  | [] => Ok (grph, [])
  | n :: rest =>
      let* g := addCiteNode grph n count nt nodeInfo fullInfo coreCitesDict coreValues true in
      let* gi := addCiteNodes g rest count nt nodeInfo fullInfo coreCitesDict coreValues in
      Ok (gi.1, makeID n nt :: gi.2)
  end.

(** The edges from [u] to each of [vs]: weighted edges are bumped at
    once, unweighted new ones are collected in [addedEdges]. *)
Fixpoint linkTo (grph : Graph) (weighted : bool) (u : pyval) (vs : list pyval)
    (addedEdges : list (pyval * pyval)) : result (Graph * list (pyval * pyval)) :=
  match vs with
  | [] => Ok (grph, addedEdges)
  | v :: rest =>
      if weighted then
        let* g := bump_edge grph u v in
        linkTo g weighted u rest addedEdges
      else
        match nbrs grph u with
        | None => Raise KeyError
        | Some l =>
            linkTo grph weighted u rest
              (if alist_mem v l then addedEdges else (addedEdges ++ [(u, v)])%list)
        end
  end.

(** [for i, outerID in enumerate(idList): for innerID in idList[i + 1:]: ..]. *)
Fixpoint linkPairs (grph : Graph) (weighted : bool) (idList : list pyval)
    (addedEdges : list (pyval * pyval)) : result (Graph * list (pyval * pyval)) :=
  match idList with
  | [] => Ok (grph, addedEdges)
  | outerID :: rest =>
      let* ga := linkTo grph weighted outerID rest addedEdges in
      linkPairs ga.1 weighted rest ga.2
  end.

Definition addToNetwork (grph : Graph) (nds : list Citation) (count weighted : bool)
    (nt : nodeType) (nodeInfo fullInfo : bool)
    (coreCitesDict : list (Citation * Rec)) (coreValues : list string)
    (headNd : option Citation) : result Graph :=
  let* gh :=
    match headNd with
    | Some h =>
        let* g := addCiteNode grph h count nt nodeInfo fullInfo coreCitesDict coreValues false in
        Ok (g, makeID h nt)
    | None => Ok (grph, PNone)
    end in
  let hID := gh.2 in
  let* gi := addCiteNodes gh.1 nds count nt nodeInfo fullInfo coreCitesDict coreValues in
  let idList := gi.2 in
  let* ga :=
    if truthy hID then linkTo gi.1 weighted hID idList []
    else if (1 <? length idList)%nat then linkPairs gi.1 weighted idList []
    else Ok (gi.1, []) in
  Ok (add_edges_from ga.1 ga.2).

(** ** expandRecs *)

(** [for e1, e2, data in G.edges_iter(citeID1, data = True):
    G.add_edge(citeID2, e2, attr_dict = data)], the part of one node.
    The iterator walks the live neighbour dict of [citeID1]: entry [i]
    is read when it is reached, and a dict that has changed size raises
    [RuntimeError] at the next step.  In an undirected graph an edge to
    a node whose own edges have been walked already ([seen]) is passed
    over. *)
Fixpoint copyEdges (G : Graph) (citeID1 citeID2 : pyval) (seen : list pyval)
    (len0 i todo : nat) : result Graph :=
  match todo with
  | O => Ok G
  | S todo' =>
      match default [] (nbrs G citeID1) !! i with
      | None => Ok G
      | Some (e2, r) =>
          if bool_decide (e2 ∈ seen)
          then copyEdges G citeID1 citeID2 seen len0 (S i) todo'
          else
            let G' := add_edge G citeID2 e2 (default [] (edata G !! r)) in
            if decide (length (default [] (nbrs G' citeID1)) = len0)
            then copyEdges G' citeID1 citeID2 seen len0 (S i) todo'
            else Raise RuntimeError
      end
  end.

(** [G.edges_iter(None, data = True)]: for networkx [None] is no node
    but the whole graph, so the edges of every node are walked, in the
    order of [adj] and on the live dicts; an undirected graph gives each
    edge once, from the end that comes first. *)
Fixpoint copyAllEdges (G : Graph) (citeID2 : pyval) (seen : list pyval)
    (n0 j todo : nat) : result Graph :=
  match todo with
  | O => Ok G
  | S todo' =>
      match adj G !! j with
      | None => Ok G
      | Some (n, _) =>
          let len0 := length (default [] (nbrs G n)) in
          let* G' := copyEdges G n citeID2 seen len0 0 len0 in
          if decide (length (adj G') = n0)
          then copyAllEdges G' citeID2 (if directed G then seen else n :: seen)
                 n0 (S j) todo'
          else Raise RuntimeError
      end
  end.

(** The whole loop over [G.edges_iter(citeID1, data = True)]. *)
Definition copyEdgesOf (G : Graph) (citeID1 citeID2 : pyval) : result Graph :=
  if decide (citeID1 = PNone)
  then copyAllEdges G citeID2 [] (length (adj G)) 0 (length (adj G))
  else
    let len0 := length (default [] (nbrs G citeID1)) in
    copyEdges G citeID1 citeID2 [] len0 0 len0.

(** [for citeID2 in fullCiteList[i + 1:]: ..]. *)
Fixpoint expandInner (G : Graph) (weighted : bool) (citeID1 : pyval)
    (rest : list pyval) : result Graph :=
  match rest with
  | [] => Ok G
  | citeID2 :: rest' =>
      let* G1 :=
        if negb (has_node G citeID2) then
          match alist_get citeID1 (node G) with
          | None => Raise KeyError
          | Some r =>
              Ok (add_edge (add_node G citeID2 r) citeID1 citeID2
                    (if weighted then [("weight", PInt 1)] else []))
          end
        else if weighted then bump_edge G citeID1 citeID2
        else Ok G in
      let* G2 := copyEdgesOf G1 citeID1 citeID2 in
      expandInner G2 weighted citeID1 rest'
  end.

(** [for i, citeID1 in enumerate(fullCiteList): if citeID1 in G: ..]. *)
Fixpoint expandOuter (G : Graph) (weighted : bool) (fullCiteList : list pyval)
    : result Graph :=
  match fullCiteList with
  | [] => Ok G
  | citeID1 :: rest =>
      let* G1 := if has_node G citeID1 then expandInner G weighted citeID1 rest
                 else Ok G in
      expandOuter G1 weighted rest
  end.

Fixpoint expandRecs (G : Graph) (RecCollect : list Rec) (nt : nodeType)
    (weighted : bool) : result Graph :=
  match RecCollect with
  | [] => Ok G
  | R :: rest =>
      let fullCiteList := map (fun c => makeID c nt) (createCitationMulti R) in
      let* G1 := if (1 <? length fullCiteList)%nat
                 then expandOuter G weighted fullCiteList else Ok G in
      expandRecs G1 rest nt weighted
  end.

(** ** The citation network builders

    A collection is iterated in the order of its set of records, which
    Python leaves open; the builders take that order as the list
    [self]. *)

(** [coreValues] / [infoVals]: the normalised tags, or the default list
    when the argument is [True]. *)
Definition tagsOf (detailed : detailedArg) (defaults : list string) : list string :=
  match detailed with
  | DNone | DBool false => []
  | DBool true => defaults
  | DTags l => map normalizeToTag l
  end.

(** [{R.createCitation() : R for R in self}]. *)
Definition makeCoreCitesDict (self : list Rec) : list (Citation * Rec) :=
  fold_left (fun d R => cdict_set (createCitation R) R d) self [].

Definition nonempty {A} (l : list A) : bool :=
  match l with [] => false | _ => true end.

(** [coreCitesDict] and [coreCites]: the dict is built when [useCore]
    holds, and its keys are the core when [coreOnly] is set; otherwise
    both are [None]. *)
Definition coreOf (self : list Rec) (useCore coreOnly : bool)
    : list (Citation * Rec) * option (list Citation) :=
  if useCore then
    let coreCitesDict := makeCoreCitesDict self in
    (coreCitesDict, if coreOnly then Some (map fst coreCitesDict) else None)
  else ([], None).

(** The main loop of [coCiteNetwork]. *)
Fixpoint coCiteLoop (tmpgrph : Graph) (recs : list Rec) (nt : nodeType)
    (dropAnon nodeInfo fullInfo weighted dropNonJournals count : bool)
    (keyWords : keyWordsArg) (coreCites : option (list Citation))
    (coreCitesDict : list (Citation * Rec)) (coreValues : list string)
    : result Graph :=
  match recs with
  | [] => Ok tmpgrph
  | R :: rest =>
      let* g :=
        match get R "citations" with
        | TCites (c :: cs) =>
            let filteredCites :=
              filterCites (c :: cs) nt dropAnon dropNonJournals keyWords coreCites in
            addToNetwork tmpgrph filteredCites count weighted nt nodeInfo fullInfo
              coreCitesDict coreValues None
        | _ => Ok tmpgrph
        end in
      coCiteLoop g rest nt dropAnon nodeInfo fullInfo weighted dropNonJournals
        count keyWords coreCites coreCitesDict coreValues
  end.

Definition coCiteNetwork (self : list Rec) (dropAnon : bool) (nodeType : string)
    (nodeInfo fullInfo weighted dropNonJournals count : bool)
    (keyWords : keyWordsArg) (detailedCore : detailedArg)
    (coreOnly expandedCore : bool) : result Graph :=
  match nodeType_of_string nodeType with
  | None => Raise RCValueError
  | Some nt =>
      let coreValues := tagsOf detailedCore ["AF"; "PY"; "TI"; "SO"; "VL"; "BP"] in
      let '(coreCitesDict, coreCites) :=
        coreOf self (coreOnly || nonempty coreValues || expandedCore) coreOnly in
      let* tmpgrph :=
        coCiteLoop nx_Graph self nt dropAnon nodeInfo fullInfo weighted
          dropNonJournals count keyWords coreCites coreCitesDict coreValues in
      if expandedCore then expandRecs tmpgrph self nt weighted else Ok tmpgrph
  end.

(** The main loop of [citationNetwork]. *)
Fixpoint citationLoop (tmpgrph : Graph) (recs : list Rec) (nt : nodeType)
    (dropAnon nodeInfo fullInfo weighted dropNonJournals count : bool)
    (keyWords : keyWordsArg) (coreCites : option (list Citation))
    (coreCitesDict : list (Citation * Rec)) (coreValues : list string)
    : result Graph :=
  match recs with
  | [] => Ok tmpgrph
  | R :: rest =>
      let reRef := createCitation R in
      let* g :=
        if nonempty (filterCites [reRef] nt dropAnon dropNonJournals keyWords coreCites)
        then
          match get R "citations" with
          | TCites (c :: cs) =>
              let filteredCites :=
                filterCites (c :: cs) nt dropAnon dropNonJournals keyWords coreCites in
              addToNetwork tmpgrph filteredCites count weighted nt nodeInfo fullInfo
                coreCitesDict coreValues (Some reRef)
          | _ => Ok tmpgrph
          end
        else Ok tmpgrph in
      citationLoop g rest nt dropAnon nodeInfo fullInfo weighted dropNonJournals
        count keyWords coreCites coreCitesDict coreValues
  end.

Definition citationNetwork (self : list Rec) (dropAnon : bool) (nodeType : string)
    (nodeInfo fullInfo weighted dropNonJournals count directed : bool)
    (keyWords : keyWordsArg) (detailedCore : detailedArg)
    (coreOnly expandedCore : bool) : result Graph :=
  match nodeType_of_string nodeType with
  | None => Raise RCValueError
  | Some nt =>
      let coreValues := tagsOf detailedCore ["AF"; "PY"; "TI"; "SO"; "VL"; "BP"] in
      let '(coreCitesDict, coreCites) :=
        coreOf self (coreOnly || nonempty coreValues) coreOnly in
      let* tmpgrph :=
        citationLoop (if directed then nx_DiGraph else nx_Graph) self nt dropAnon
          nodeInfo fullInfo weighted dropNonJournals count keyWords coreCites
          coreCitesDict coreValues in
      if expandedCore then expandRecs tmpgrph self nt weighted else Ok tmpgrph
  end.

(** ** coAuthNetwork *)

(** The string that [attributeMaker] stores for one tag. *)
Definition infoString (recVal : tagVal) : string :=
  match recVal with
  | TList l => join (map replace_comma l)
  | TCites l => join (map (fun c => replace_comma (cite_str c)) l)
  | TStr s => replace_comma s
  | TInt z => replace_comma (pretty z)
  | TNone => replace_comma "None"
  end.

(** [attributeMaker(Rec)]; [infoVals] is [None] when [detailedInfo] is
    false. *)
Definition attributeMaker (infoVals : option (list string)) (count : bool)
    (R : Rec) : dict :=
  match infoVals with
  | Some vals =>
      let attribsDict :=
        fold_left (fun d val => alist_set val (PStr (infoString (get R val))) d) vals [] in
      if count then alist_set "count" (PInt 1) attribsDict else attribsDict
  | None => if count then [("count", PInt 1)] else []
  end.

(** [if a not in grph: grph.add_node(a, attr_dict = detailedInfo)] /
    [elif count: grph.node[a]['count'] += 1], where [detailedInfo] is
    the dict object [r]. *)
Definition authNode (grph : Graph) (a : pyval) (r : nat) (count : bool)
    : result Graph :=
  if negb (has_node grph a) then Ok (add_node grph a r)
  else if count then incr_count grph a
  else Ok grph.

Fixpoint authInner (grph : Graph) (auth1 : pyval) (rest : list pyval) (r : nat)
    (count weighted : bool) : result Graph :=
  match rest with
  | [] => Ok grph
  | auth2 :: rest' =>
      let* g1 := authNode grph auth2 r count in
      let* g2 :=
        if has_edge g1 auth1 auth2 && weighted then incr_weight g1 auth1 auth2
        else if weighted then Ok (add_edge g1 auth1 auth2 [("weight", PInt 1)])
        else Ok (add_edge g1 auth1 auth2 []) in
      authInner g2 auth1 rest' r count weighted
  end.

Fixpoint authOuter (grph : Graph) (authsList : list pyval) (r : nat)
    (count weighted : bool) : result Graph :=
  match authsList with
  | [] => Ok grph
  | auth1 :: rest =>
      let* g1 := authNode grph auth1 r count in
      let* g2 := authInner g1 auth1 rest r count weighted in
      authOuter g2 rest r count weighted
  end.

(** [authsList = R.get('authorsFull')], [if authsList:],
    [authsList = list(authsList)]: [None] stands for a false value.  The
    last case is never reached, [get] returns citations for
    ['citations'] only. *)
Definition authsListOf (R : Rec) : result (option (list pyval)) :=
  match get R "authorsFull" with
  | TNone | TStr "" | TInt 0 | TList [] => Ok None
  | TStr s => Ok (Some (map PStr (chars s)))
  | TList l => Ok (Some (map PStr l))
  | TInt _ => Raise TypeError
  | TCites _ => Raise TypeError
  end.

Fixpoint coAuthLoop (grph : Graph) (recs : list Rec) (infoVals : option (list string))
    (weighted dropNonJournals count : bool) : result Graph :=
  match recs with
  | [] => Ok grph
  | R :: rest =>
      let* g :=
        if dropNonJournals && negb (isJournal (createCitation R)) then Ok grph
        else
          let* authsList := authsListOf R in
          match authsList with
          | None => Ok grph
          | Some authsList =>
              let '(g0, detailedInfo) := new_dict grph (attributeMaker infoVals count R) in
              if (1 <? length authsList)%nat
              then authOuter g0 authsList detailedInfo count weighted
              else
                match authsList with
                | auth1 :: _ => authNode g0 auth1 detailedInfo count
                | [] => Raise IndexError
                end
          end in
      coAuthLoop g rest infoVals weighted dropNonJournals count
  end.

Definition coAuthNetwork (self : list Rec) (detailedInfo : detailedArg)
    (weighted dropNonJournals count : bool) : result Graph :=
  let infoVals :=
    match detailedInfo with
    | DNone | DBool false | DTags [] => None
    | _ => Some (tagsOf detailedInfo ["PY"; "TI"; "SO"; "VL"; "BP"])
    end in
  coAuthLoop nx_Graph self infoVals weighted dropNonJournals count.

(** ** localCiteStats *)

(** The keys of the frequency table: citations, or attribute values. *)
Inductive statKey :=
  | KCite (c : Citation)
  | KVal (v : pyval).

Definition statKey_eqb (k1 k2 : statKey) : bool :=
  match k1, k2 with
  | KCite a, KCite b => cite_eqb a b
  | KVal a, KVal b => bool_decide (a = b)
  | _, _ => false
  end.

(** [if cVal in citesDict: citesDict[cVal] += 1] / [else: citesDict[cVal] = 1]. *)
Fixpoint countKey (cVal : statKey) (citesDict : list (statKey * Z)) : list (statKey * Z) :=
  match citesDict with
  | [] => [(cVal, 1)]
  | (k, n) :: t =>
      if statKey_eqb cVal k then (k, n + 1) :: t else (k, n) :: countKey cVal t
  end.

(** [keyTypesLst = ["citation", "journal", "year", "author"]]: the whole
    citation, or one attribute. *)
Definition keyType_of_string (s : string) : option (option field) :=
  if decide (s = "citation") then Some None
  else if decide (s = "journal") then Some (Some Fjournal)
  else if decide (s = "year") then Some (Some Fyear)
  else if decide (s = "author") then Some (Some Fauthor)
  else None.

(** [for c in rCites: ..]. *)
Fixpoint countCites (rCites : list Citation) (keyType : option field)
    (citesDict : list (statKey * Z)) : list (statKey * Z) :=
  match rCites with
  | [] => citesDict
  | c :: rest =>
      match keyType with
      | None => countCites rest keyType (countKey (KCite c) citesDict)
      | Some f =>
          match getattr c f with
          | PNone => countCites rest keyType citesDict
          | cVal => countCites rest keyType (countKey (KVal cVal) citesDict)
          end
      end
  end.

Fixpoint citeStatsLoop (recs : list Rec) (keyType : option field)
    (citesDict : list (statKey * Z)) : list (statKey * Z) :=
  match recs with
  | [] => citesDict
  | R :: rest =>
      match get R "citations" with
      | TCites (c :: cs) =>
          citeStatsLoop rest keyType (countCites (c :: cs) keyType citesDict)
      | _ => citeStatsLoop rest keyType citesDict
      end
  end.

(** What [localCiteStats] returns: the dict, or its keys and values as
    the two lists of a pandas friendly dict. *)
Inductive citeStats :=
  | StatsDict (citesDict : list (statKey * Z))
  | StatsPandas (Citations : list statKey) (Counts : list Z).

Definition localCiteStats (self : list Rec) (pandasFriendly : bool)
    (keyType : string) : result citeStats :=
  match keyType_of_string keyType with
  | None => Raise TypeError
  | Some kt =>
      let citesDict := citeStatsLoop self kt [] in
      if pandasFriendly
      then Ok (StatsPandas (map fst citesDict) (map snd citesDict))
      else Ok (StatsDict citesDict)
  end.

End engine.

(** ** yearSplit *)

(** The loop of [yearSplit]: comparing a year that is no integer with
    [startYear] raises [TypeError], which is passed on unless
    [dropMissingYears] is set. *)
Fixpoint yearSplitLoop (recs : list Rec) (startYear endYear : Z)
    (dropMissingYears : bool) (recordsInRange : gset Rec) : result (gset Rec) :=
  match recs with
  | [] => Ok recordsInRange
  | R :: rest =>
      match get R "year" with
      | TInt y =>
          yearSplitLoop rest startYear endYear dropMissingYears
            (if (startYear <=? y) && (y <=? endYear)
             then recordsInRange ∪ {[R]} else recordsInRange)
      | _ =>
          if dropMissingYears
          then yearSplitLoop rest startYear endYear dropMissingYears recordsInRange
          else Raise TypeError
      end
  end.

(** [order] is the order in which the set of [self] is iterated. *)
Definition yearSplit (self : RecordCollection) (order : list Rec)
    (startYear endYear : Z) (dropMissingYears : bool) : result RecordCollection :=
  let* recordsInRange := yearSplitLoop order startYear endYear dropMissingYears ∅ in
  Ok (RecordCollection_init recordsInRange
        (name self +:+ "(" +:+ pretty startYear +:+ "-" +:+ pretty endYear +:+ ")")).

(** The orders in which [for R in self] can run. *)
Definition iterates (self : RecordCollection) (order : list Rec) : Prop :=
  order ≡ₚ elements (_Records self).

(** ** The set methods of a collection *)

(** An argument that may or may not be a [Record]. *)
Inductive pyobj :=
  | ORecord (R : Rec)
  | OOther (v : pyval).

Definition __contains__ (self : RecordCollection) (item : Rec) : bool :=
  bool_decide (item ∈ _Records self).

(** [add]: [self] after the call, or the [RCTypeError]. *)
Definition add (self : RecordCollection) (elem : pyobj) : result RecordCollection :=
  match elem with
  | ORecord R => Ok (set_Records self (_Records self ∪ {[R]}))
  | OOther _ => Raise RCTypeError
  end.

Definition discard (self : RecordCollection) (elem : Rec) : RecordCollection :=
  set_Records self (_Records self ∖ {[elem]}).

(** [set.remove] raises [KeyError] for an absent element; [remove]
    raises a [KeyError] with its own message in its place. *)
Definition remove (self : RecordCollection) (elem : Rec) : result RecordCollection :=
  if bool_decide (elem ∈ _Records self)
  then Ok (set_Records self (_Records self ∖ {[elem]}))
  else Raise KeyError.

Definition clear (self : RecordCollection) : RecordCollection :=
  {| bad := false; errors := ∅; name := name self; _Records := ∅ |}.

(** [set.pop] takes some element out of the set.  Which one is up to
    the set: it searches its table from a position that it keeps from
    one call to the next, and this is not where an iteration starts.
    The table as [pop] finds it is the list [scan], some arrangement of
    the elements; its first element is the one that is taken.  The
    record and [self] after the call come back. *)
Definition pop (self : RecordCollection) (scan : list Rec)
    : result (Rec * RecordCollection) :=
  match scan with
  | [] => Raise KeyError
  | R :: _ => Ok (R, set_Records self (_Records self ∖ {[R]}))
  end.

(** [peak]: [self._Records.__iter__().__next__()], the first record of
    an iteration over the set, or [None]. *)
Definition peak (self : RecordCollection) (order : list Rec) : option Rec :=
  if (0 <? size (_Records self))%nat then head order else None.

(** [__repr__], for a collection of the class itself. *)
Definition __repr__ (self : RecordCollection) : string :=
  "<metaknowledge.RecordCollection object " +:+ name self +:+ ">".

(** ** Lookup by id

    Each of the four methods walks the records in iteration order and
    stops at the first one with the id. *)

Fixpoint containsID (order : list Rec) (idVal : string) : bool :=
  match order with
  | [] => false
  | R :: rest => if decide (Rec_id R = idVal) then true else containsID rest idVal
  end.

Fixpoint getID (order : list Rec) (idVal : string) : option Rec :=
  match order with
  | [] => None
  | R :: rest => if decide (Rec_id R = idVal) then Some R else getID rest idVal
  end.

Fixpoint discardID (self : RecordCollection) (order : list Rec) (idVal : string)
    : RecordCollection :=
  match order with
  | [] => self
  | R :: rest =>
      if decide (Rec_id R = idVal)
      then set_Records self (_Records self ∖ {[R]})
      else discardID self rest idVal
  end.

(** The record found is in the set, [set.remove] cannot fail here. *)
Fixpoint removeID (self : RecordCollection) (order : list Rec) (idVal : string)
    : result RecordCollection :=
  match order with
  | [] => Raise KeyError
  | R :: rest =>
      if decide (Rec_id R = idVal)
      then
        if bool_decide (R ∈ _Records self)
        then Ok (set_Records self (_Records self ∖ {[R]}))
        else Raise KeyError
      else removeID self rest idVal
  end.

(** ** Bad records *)

(** The loop of [BadRecords]. *)
Fixpoint badRecordsLoop (order : list Rec) (badRecords : gset Rec) : gset Rec :=
  match order with
  | [] => badRecords
  | R :: rest =>
      badRecordsLoop rest (if Rec_bad R then badRecords ∪ {[R]} else badRecords)
  end.

Definition BadRecords (self : RecordCollection) (order : list Rec) : RecordCollection :=
  RecordCollection_init (badRecordsLoop order ∅) (__repr__ self +:+ "_badRecords").

(** [self._Records = {r for r in self._Records if not r.bad}]. *)
Definition dropBadRecords (self : RecordCollection) : RecordCollection :=
  set_Records self (filter (λ r, Rec_bad r = false) (_Records self)).

(** ** The hash of a collection *)

Section hashing.
(** [hash] on records and on integers. *)
Variable hash_Record : Rec → Z.
Variable hash_int : Z → Z.

(** [sum(..)] of integers, from [0]. *)
Definition sum_ints (l : list Z) : Z := fold_left Z.add l 0.

Definition __hash__ (order : list Rec) : Z :=
  hash_int (sum_ints (map hash_Record order)).
End hashing.

(** * The vocabulary of the properties *)

(** A collection is consistent when it records errors only if it is bad,
    as the constructor and [clear] leave it. *)
Definition consistent (A : RecordCollection) : Prop :=
  bad A = false → errors A = ∅.

(** C10 as it is stated, for two collections. *)
Definition size_order_claim (A B : RecordCollection) : Prop :=
  (__le__ A B = true ↔ (__len__ A ≤ __len__ B)%nat) ∧
  (__ge__ A B = true ↔ (__len__ A ≥ __len__ B)%nat) ∧
  (_Records A ## _Records B → __len__ A = __len__ B →
   __le__ A B = true ∧ __ge__ A B = true ∧ __eq__ A B = false).

(** The year of [R] is an integer within the bounds, both included. *)
Definition inYears (startYear endYear : Z) (R : Rec) : Prop :=
  ∃ y, get R "year" = TInt y ∧ startYear ≤ y ≤ endYear.

(** [R] has a year that compares with an integer. *)
Definition hasYear (R : Rec) : Prop := ∃ y, get R "year" = TInt y.

(** Case-insensitive matching, said without [upper]: a lower-case letter
    is one of [a]..[z]; two characters agree when they are equal or are
    the two cases of one letter; two strings agree when they do so
    character by character. *)
Definition is_lower (a : ascii) : Prop := (97 ≤ N_of_ascii a ≤ 122)%N.

(** [a] and [b] are the same character up to case. *)
Definition ci_char (a b : ascii) : Prop :=
  a = b ∨
  (is_lower a ∧ N_of_ascii b = (N_of_ascii a - 32)%N) ∨
  (is_lower b ∧ N_of_ascii a = (N_of_ascii b - 32)%N).

(** [s] and [t] are the same text up to case. *)
Inductive ci_eq : string → string → Prop :=
  | ci_eq_nil : ci_eq "" ""
  | ci_eq_cons a b s t : ci_char a b → ci_eq s t → ci_eq (String a s) (String b t).

(** [k] occurs in [text] when case is ignored. *)
Definition ci_substring (k text : string) : Prop :=
  ∃ pre mid post, text = pre +:+ mid +:+ post ∧ ci_eq k mid.

(** The keywords that the argument supplies. *)
Definition keywords (keyWords : keyWordsArg) : list string :=
  match keyWords with
  | KWNone => []
  | KWStr s => [s]
  | KWList l => l
  end.

(** [k] occurs in [text]. *)
Definition substring (k text : string) : Prop :=
  ∃ pre post, text = pre +:+ k +:+ post.

(** The rendered text of [c] contains one of the keywords when case is
    ignored, the way Python ignores it here: the keyword in upper case
    occurs in the text in upper case. *)
Definition mentions (str_upper : string → string) (keyWords : keyWordsArg)
    (c : Citation) : Prop :=
  ∃ k, k ∈ keywords keyWords ∧ substring (str_upper k) (str_upper (cite_str c)).

(** Text of ASCII characters only. *)
Fixpoint ascii_text (s : string) : Prop :=
  match s with
  | EmptyString => True
  | String a t => (N_of_ascii a < 128)%N ∧ ascii_text t
  end.

(** On ASCII text [str.upper] moves the letters [a]..[z] to [A]..[Z]
    and leaves every other character. *)
Definition upper_on_ascii (str_upper : string → string) : Prop :=
  ∀ s, ascii_text s → str_upper s = upper s.

(** The nodes of [node] and of [adj] are the same, as in every networkx
    graph. *)
Definition wf (G : Graph) : Prop :=
  ∀ n, alist_mem n (adj G) = alist_mem n (node G).

(** The number of successors stored for a node. *)
Definition out_size (e : pyval * list (pyval * nat)) : nat := length e.2.

(** [G'] has the nodes and edges of [G], and possibly more. *)
Record grows (G G' : Graph) : Prop := {
  grows_directed : directed G' = directed G;
  grows_nodes : (number_of_nodes G ≤ number_of_nodes G')%nat;
  grows_out : (sum_list (map out_size (adj G)) ≤ sum_list (map out_size (adj G')))%nat;
  grows_degree : (sum_list (map degree (adj G)) ≤ sum_list (map degree (adj G')))%nat;
  grows_has_node n : has_node G n = true → has_node G' n = true;
  grows_has_edge u v : has_edge G u v = true → has_edge G' u v = true
}.

(** The steps out of which the builders are made; [P] holds of the nodes
    that are named. *)
Inductive prim (P : pyval → Prop) : Graph → Graph → Prop :=
  | prim_ndata G x : prim P G (set_ndata G x)
  | prim_edata G x : prim P G (set_edata G x)
  | prim_add_node G n r : P n → prim P G (add_node G n r)
  | prim_add_edge G u v attr : P u → P v → prim P G (add_edge G u v attr).

(** Any number of such steps. *)
Definition steps (P : pyval → Prop) : Graph → Graph → Prop := rtc (prim P).

(** Both ends of an edge satisfy [P]. *)
Definition Pedge (P : pyval → Prop) (e : pyval * pyval) : Prop := P e.1 ∧ P e.2.

(** The keys other than [None]. *)
Definition notNone (k : pyval) : Prop := k ≠ PNone.

(** Core expansion names any node. *)
Definition anyNode (k : pyval) : Prop := True.

(** C2 as it is stated, for the graph [r] that a builder returns: the
    identity of [c] is a node of it. *)
Definition pooled (r : result Graph) (c : Citation) (nt : nodeType) : Prop :=
  ∃ G, r = Ok G ∧ has_node G (makeID c nt) = true.

(** C3 as it is stated, for one graph: a second run of [expandRecs]
    leaves the numbers of nodes and of edges as the first run left
    them. *)
Definition expansion_idempotent (G : Graph) (RecCollect : list Rec)
    (nt : nodeType) (weighted : bool) : Prop :=
  ∀ G1 G2,
    expandRecs G RecCollect nt weighted = Ok G1 →
    expandRecs G1 RecCollect nt weighted = Ok G2 →
    number_of_nodes G2 = number_of_nodes G1 ∧
    number_of_edges G2 = number_of_edges G1.

(** The undirected graph with the nodes [X] and [Y] and one edge of
    weight [w] between them. *)
Definition pairGraph (X Y : pyval) (nd : list dict) (w : Z) : Graph :=
  mkGraph false [(X, 0%nat); (Y, 1%nat)]
    [(X, [(Y, 0%nat)]); (Y, [(X, 0%nat)])] nd [[("weight", PInt w)]].

(** The citations of [R] that [coCiteNetwork] adds to the graph: those
    that [filterCites] keeps. *)
Definition citedBy (cite_eqb : Citation → Citation → bool)
    (str_upper : string → string) (R : Rec) (nt : nodeType)
    (dropAnon dropNonJournals : bool) (keyWords : keyWordsArg)
    (coreCites : option (list Citation)) : list Citation :=
  match get R "citations" with
  | TCites cites => filterCites cite_eqb str_upper cites nt dropAnon dropNonJournals keyWords coreCites
  | _ => []
  end.

(** The attribute dict of the node of [c] can be made, for the core index
    that [coCiteNetwork] builds from the records [self]. *)
Definition attributes_ok (normalizeToTag : string → string)
    (cite_eqb : Citation → Citation → bool) (self : list Rec) (nt : nodeType)
    (nodeInfo fullInfo count : bool) (detailedCore : detailedArg) (coreOnly : bool)
    (c : Citation) : Prop :=
  let coreValues := tagsOf normalizeToTag detailedCore ["AF"; "PY"; "TI"; "SO"; "VL"; "BP"] in
  let core := coreOf cite_eqb self (coreOnly || nonempty coreValues || false) coreOnly in
  ∃ d, makeNodeTuple cite_eqb c (makeID c nt) nodeInfo fullInfo nt count
         core.1 coreValues = Ok d.

(** The citations [c1] and [c2] have the identities [X] and [Y], in one
    order or the other. *)
Definition identities (nt : nodeType) (c1 c2 : Citation) (X Y : pyval) : Prop :=
  makeID c1 nt = X ∧ makeID c2 nt = Y ∨ makeID c1 nt = Y ∧ makeID c2 nt = X.

(** The citation [c] has the attribute [f]. *)
Definition hasField (f : field) (c : Citation) : bool :=
  negb (bool_decide (getattr c f = PNone)).

(** The record [R] without its citations that lack the attribute [f]. *)
Definition withField (f : field) (R : Rec) : Rec :=
  mkRec (Rec_id R) (Rec_bad R) (Rec_tags R) (List.filter (hasField f) <$> citations R)
    (createCitation R) (createCitationMulti R).

(** No entry of the table has the key [None], and every count is at
    least one. *)
Definition counted (kn : statKey * Z) : Prop := kn.1 ≠ KVal PNone ∧ 1 ≤ kn.2.

(** The call raises an exception of the kind [k]; C8 as it is stated has
    [InvalidArgument] here. *)
Definition fails_with (r : result citeStats) (k : spec_error) : Prop :=
  ∃ e, r = Raise e ∧ taxonomy e = k.

(** No two records of the collection have the same id. *)
Definition unique_ids (self : RecordCollection) : Prop :=
  ∀ R R', R ∈ _Records self → R' ∈ _Records self → Rec_id R = Rec_id R' → R = R'.

(** Some record of the collection has the id. *)
Definition holdsID (self : RecordCollection) (idVal : string) : Prop :=
  ∃ R, R ∈ _Records self ∧ Rec_id R = idVal.

(** The citations that a record brings to the statistics and to the
    networks: its list of citations, when it has one. *)
Definition cited (R : Rec) : list Citation :=
  match get R "citations" with
  | TCites l => l
  | _ => []
  end.

(** A citation that [localCiteStats] counts for the key type: any
    citation, or one that has the attribute. *)
Definition hasKey (keyType : option field) (c : Citation) : bool :=
  match keyType with
  | None => true
  | Some f => negb (bool_decide (getattr c f = PNone))
  end.

(** What the flags [dropAnon] and [dropNonJournals] ask of a citation. *)
Definition passes (dropAnon dropNonJournals : bool) (c : Citation) : Prop :=
  dropAnon && isAnonymous c = false ∧ dropNonJournals && negb (isJournal c) = false.

(** The identities of the citations of the records that pass the
    filter. *)
Definition cocited (cite_eqb : Citation → Citation → bool)
    (str_upper : string → string) (self : list Rec)
    (nt : nodeType) (dropAnon dropNonJournals : bool) (keyWords : keyWordsArg)
    (coreCites : option (list Citation)) (k : pyval) : Prop :=
  ∃ R c, R ∈ self ∧
         c ∈ filterCites cite_eqb str_upper (cited R) nt dropAnon dropNonJournals keyWords coreCites ∧
         makeID c nt = k.

(** The identities of the records that pass the filter themselves and
    have citations, and of those of their citations that pass it. *)
Definition citing_or_cited (cite_eqb : Citation → Citation → bool)
    (str_upper : string → string) (self : list Rec)
    (nt : nodeType) (dropAnon dropNonJournals : bool) (keyWords : keyWordsArg)
    (coreCites : option (list Citation)) (k : pyval) : Prop :=
  ∃ R, R ∈ self ∧
       keepCite cite_eqb str_upper nt dropAnon dropNonJournals keyWords coreCites
         (createCitation R) = true ∧
       cited R ≠ [] ∧
       (makeID (createCitation R) nt = k ∨
        ∃ c, c ∈ filterCites cite_eqb str_upper (cited R) nt dropAnon dropNonJournals keyWords
                   coreCites ∧
             makeID c nt = k).

(** The authors of the records that are not dropped. *)
Definition coauthor (self : list Rec) (dropNonJournals : bool) (k : pyval) : Prop :=
  ∃ R auths, R ∈ self ∧
             dropNonJournals && negb (isJournal (createCitation R)) = false ∧
             authsListOf R = Ok (Some auths) ∧ k ∈ auths.

(** * Examples *)

(** A collection read from a damaged file, and a sound one. *)
Definition damaged : RecordCollection :=
  {| bad := true; errors := {[ "a.isi" := "BadWOSFile" ]}; name := "A"; _Records := ∅ |}.

Definition sound : RecordCollection := RecordCollection_init ∅ "B".

(** *** Citations and papers *)

(** Two citations are the same dict key when their [ID()] agree. *)
Definition same_ID (a b : Citation) : bool := bool_decide (ID a = ID b).

(** A journal citation with an author, a year and a journal, some of
    which can be missing; [txt] is its text and its [ID()]. *)
Definition citation (a : option string) (y : option Z) (j : option string)
    (txt : string) : Citation :=
  mkCitation a y j None None None txt false true txt txt j txt.

Definition smith : Citation :=
  citation (Some "Smith J") (Some 1999) (Some "NATURE") "Smith J, 1999, NATURE".

Definition jones : Citation :=
  citation (Some "Jones K") (Some 2001) (Some "SCIENCE") "Jones K, 2001, SCIENCE".

Definition unsigned : Citation :=
  citation None (Some 1999) (Some "NATURE") "1999, NATURE".

Definition unsigned' : Citation :=
  citation None (Some 2001) (Some "SCIENCE") "2001, SCIENCE".

(** The citation of a paper in PHYS REV for one of its authors. *)
Definition byAuthor (yr : Z) (a : string) : Citation :=
  citation (Some a) (Some yr) (Some "PHYS REV") (a +:+ ", " +:+ pretty yr +:+ ", PHYS REV").

(** A paper in PHYS REV: its own citation is that of its first author,
    and with [multiCite] there is one for each author. *)
Definition paper (id : string) (authors : list string) (yr : Z)
    (cites : list Citation) : Rec :=
  mkRec id false {[ "authorsFull" := FList authors; "year" := FInt yr ]} (Some cites)
    (byAuthor yr (hd "" authors)) (map (byAuthor yr) authors).

Definition paperAB : Rec := paper "WOS:1" ["A"; "B"] 2005 [].

Definition paperCA : Rec := paper "WOS:2" ["C"; "A"] 2005 [].

Definition paperZ : Rec := paper "WOS:3" ["Z"] 2010 [byAuthor 2005 "C"; jones].

Definition paperP : Rec := paper "WOS:4" ["P"] 2011 [smith; jones].

Definition paperQ : Rec := paper "WOS:5" ["Q"] 2012 [jones; smith].

Definition paperAC : Rec := paper "WOS:6" ["A"; "C"] 2006 [].

Definition paperU : Rec := paper "WOS:7" ["U"] 2013 [unsigned; unsigned'].

(** Three papers in the order of iteration: by A and B, by C and A, and
    by Z, which cites the second under C. *)
Definition threePapers : list Rec := [paperAB; paperCA; paperZ].

(** The graph that [coCiteNetwork] builds for them, with the default
    arguments. *)
Definition cociteGraph : result Graph :=
  coCiteNetwork id same_ID upper threePapers true "full" true false true false true
    KWNone DNone false false.

(** One run of [expandRecs] on it. *)
Definition expanded (r : result Graph) : result Graph :=
  let* G := r in expandRecs G threePapers full true.

Definition graphOf (r : result Graph) : Graph :=
  match r with Ok G => G | Raise _ => nx_Graph end.

(** The graph as built, after one run and after two runs of [expandRecs]. *)
Definition G0 : Graph := Eval vm_compute in graphOf cociteGraph.

Definition G1 : Graph := Eval vm_compute in graphOf (expanded cociteGraph).

Definition G2 : Graph := Eval vm_compute in graphOf (expanded (expanded cociteGraph)).

(** A citation whose author is the empty string, and a paper that cites
    it beside Smith. *)
Definition nameless : Citation :=
  citation (Some "") (Some 2003) (Some "NATURE") ", 2003, NATURE".

Definition paperN : Rec := paper "WOS:8" ["N"] 2014 [nameless; smith].

(** The graph that [coCiteNetwork] builds by author for the papers with
    the unsigned and the nameless citations. *)
Definition unsignedGraph : Graph :=
  Eval vm_compute in
  graphOf (coCiteNetwork id same_ID upper [paperU; paperN] true "author" true false true
             false true KWNone DNone false false).

(** Two collections of one paper each. *)
Definition shelf : RecordCollection := RecordCollection_init {[ paperP ]} "shelf".

Definition shelf' : RecordCollection := RecordCollection_init {[ paperQ ]} "other shelf".

(** A second record with the id of [paperP]. *)
Definition reprint : Rec := paper "WOS:4" ["P"] 2012 [jones].

Definition twins : RecordCollection :=
  RecordCollection_init {[ paperP; reprint ]} "twins".

(** [shelf] under another name. *)
Definition shelf2 : RecordCollection := RecordCollection_init {[ paperP ]} "copy".

(** The graphs that [citationNetwork] and [coAuthNetwork] build for the
    three papers, with the default arguments. *)
Definition citationGraph : Graph :=
  Eval vm_compute in
  graphOf (citationNetwork id same_ID upper threePapers true "full" true false true false
             true true KWNone DNone false false).

Definition coauthorGraph : Graph :=
  Eval vm_compute in graphOf (coAuthNetwork id threePapers DNone true false true).

(** * Properties *)

(** ** The set algebra of collections *)

Lemma propagate_Records self other target :
  _Records (propagate self other target) = _Records target.
Proof. unfold propagate. by destruct (bad other || bad self). Qed.

Lemma propagate_bad self other target :
  bad target = bad self ∨ bad target = false →
  bad (propagate self other target) = bad self || bad other.
Proof.
  unfold propagate. destruct (bad other) eqn:Ho, (bad self) eqn:Hs; simpl; try done.
  by intros [-> | ->].
Qed.

(** The [bad] flag of each of the eight operators is the OR of the flags
    of the operands. *)
Lemma bad_flag_is_or self other :
  Forall (fun op : RecordCollection → RecordCollection → RecordCollection =>
            bad (op self other) = bad self || bad other)
    [__or__; __and__; __sub__; __xor__; __ior__; __iand__; __isub__; __ixor__].
Proof.
  repeat constructor; apply propagate_bad; simpl; auto.
Qed.

(** In place, the errors of [self] are kept and those of [other] added. *)
Lemma inplace_errors_union self other :
  consistent other →
  Forall (fun op : RecordCollection → RecordCollection → RecordCollection =>
            errors (op self other) = update (errors self) (errors other))
    [__ior__; __iand__; __isub__; __ixor__].
Proof.
  intros Hc. unfold consistent in Hc.
  repeat constructor; unfold __ior__, __iand__, __isub__, __ixor__, propagate, update;
    destruct (bad other) eqn:Ho; simpl; try done;
    destruct (bad self); simpl; try done;
    rw Hc //; by rw (left_id_L ∅ (∪)).
Qed.

(** The pure operators return the errors of [other] alone: the fresh
    collection starts without errors and is never given those of [self]. *)
Lemma pure_errors_of_other self other :
  consistent other →
  Forall (fun op : RecordCollection → RecordCollection → RecordCollection =>
            errors (op self other) = errors other)
    [__or__; __and__; __sub__; __xor__].
Proof.
  intros Hc. unfold consistent in Hc.
  repeat constructor; unfold __or__, __and__, __sub__, __xor__, propagate, update;
    destruct (bad other) eqn:Ho; simpl;
    try (by rw (right_id_L ∅ (∪)));
    destruct (bad self); simpl; try (by rw (right_id_L ∅ (∪)));
    by rw Hc.
Qed.

(** C1, at [damaged | sound] and the three other pure operators: the
    result is bad, yet its error map is empty, while the union of the
    error maps of the operands holds the entry of ["a.isi"], which the
    in-place operator keeps. *)
Theorem pure_operators_drop_errors_of_self :
  Forall (fun op : RecordCollection → RecordCollection → RecordCollection =>
            bad (op damaged sound) = true ∧
            errors (op damaged sound) = ∅ ∧
            errors (op damaged sound) ≠ update (errors damaged) (errors sound))
    [__or__; __and__; __sub__; __xor__] ∧
  errors (__ior__ damaged sound) = update (errors damaged) (errors sound) ∧
  update (errors damaged) (errors sound) !! "a.isi" = Some "BadWOSFile".
Proof.
  assert (Hne : (∅ : gmap string string) ≠ update (errors damaged) (errors sound)).
  { intros Heq. apply (f_equal (fun m => m !! "a.isi")) in Heq.
    by vm_compute in Heq. }
  split; [|split; by vm_compute].
  repeat constructor; try done.
Qed.

(** C9: union commutes under [==], an intersection lies within both
    operands, [A - A] has no records and the empty collection is neutral
    for union under [==]. *)
Theorem set_algebra_laws (A B : RecordCollection) :
  __eq__ (__or__ A B) (__or__ B A) = true ∧
  _Records (__and__ A B) ⊆ _Records A ∧
  _Records (__and__ A B) ⊆ _Records B ∧
  __len__ (__sub__ A A) = 0%nat ∧
  (∀ R, R ∉ _Records (__sub__ A A)) ∧
  __eq__ (__or__ A RecordCollection_empty) A = true.
Proof.
  unfold __eq__, __len__, __or__, __and__, __sub__.
  rw !propagate_Records /=.
  repeat split.
  - apply bool_decide_eq_true. set_solver.
  - set_solver.
  - set_solver.
  - rw difference_diag_L. apply size_empty.
  - set_solver.
  - apply bool_decide_eq_true. set_solver.
Qed.

(** ** The order on collections *)

(** C10 fails for two empty collections: they are disjoint and of equal
    size, and they are equal. *)
Lemma size_order_claim_fails_on_empty :
  ¬ size_order_claim RecordCollection_empty (RecordCollection_init ∅ "B").
Proof.
  unfold size_order_claim. intros (_ & _ & H).
  destruct H as (_ & _ & H); [set_solver | done |].
  unfold __eq__ in H. by rw bool_decide_eq_false in H.
Qed.

(** C10, amended: [<=] and [>=] compare the sizes, and two disjoint
    collections of equal size, one of which has a record, are below and
    above each other and not equal. *)
Theorem size_order (A B : RecordCollection) :
  (__le__ A B = true ↔ (__len__ A ≤ __len__ B)%nat) ∧
  (__ge__ A B = true ↔ (__len__ A ≥ __len__ B)%nat) ∧
  (_Records A ## _Records B → __len__ A = __len__ B → __len__ A ≠ 0%nat →
   __le__ A B = true ∧ __ge__ A B = true ∧ __eq__ A B = false).
Proof.
  unfold __le__, __ge__, __eq__.
  split; [apply Nat.leb_le|]. split; [apply Nat.leb_le|].
  intros Hdisj Hlen Hne. rw -Hlen.
  split; [by apply Nat.leb_le|]. split; [by apply Nat.leb_le|].
  apply bool_decide_eq_false. intros Heq.
  apply Hne. unfold __len__. apply size_empty_iff, elem_of_equiv_empty.
  intros x Hx. apply (Hdisj x); [done | by rw -Heq].
Qed.

(** ** yearSplit *)

Lemma yearSplitLoop_ok recs startYear endYear drop acc :
  (drop = true ∨ Forall hasYear recs) →
  ∃ s, yearSplitLoop recs startYear endYear drop acc = Ok s ∧
       ∀ R, R ∈ s ↔ R ∈ acc ∨ (R ∈ recs ∧ inYears startYear endYear R).
Proof.
  revert acc. induction recs as [|R0 recs IH]; intros acc Hd; simpl.
  - exists acc. split; [done|]. intros R. set_solver.
  - assert (Hd' : drop = true ∨ Forall hasYear recs).
    { destruct Hd as [?|H]; [by left | right; by inversion H]. }
    destruct (get R0 "year") as [|s0|z|l0|l0] eqn:Hy.
    1,2,4,5:
      (destruct Hd as [-> | H];
       [ destruct (IH acc) as (s & Hs & Hin); [by left|];
         exists s; split; [done|]; intros R; rw Hin;
         split; [intros [?|[? ?]]; [by left | right; split; [by right | done]]|];
         intros [?|[HR Hin']]; [by left|];
         apply elem_of_cons in HR as [-> | HR]; [|right; by split];
         destruct Hin' as (y & Hy' & _); congruence
       | inversion H as [|?? [y Hy'] ?]; congruence ]).
    destruct (IH (if (startYear <=? z) && (z <=? endYear) then acc ∪ {[R0]} else acc) Hd')
      as (s & Hs & Hin).
    exists s. split; [done|]. intros R. rw Hin.
    destruct ((startYear <=? z) && (z <=? endYear)) eqn:Hr.
    + apply andb_true_iff in Hr as [H1%Z.leb_le H2%Z.leb_le].
      rw elem_of_union elem_of_singleton elem_of_cons.
      split.
      * intros [[?| ->]|[? ?]]; [by left| |right; split; [by right|done]].
        right. split; [by left|]. exists z. split; [done | lia].
      * intros [?|[[-> | ?] ?]]; [by left; left| by left; right | right; by split].
    + rw elem_of_cons. split.
      * intros [?|[? ?]]; [by left | right; split; [by right | done]].
      * intros [?|[[-> | ?] HY]]; [by left | | right; by split].
        destruct HY as (y & Hy' & Hle). rw Hy in Hy'. injection Hy' as <-.
        apply andb_false_iff in Hr as [H%Z.leb_gt | H%Z.leb_gt]; lia.
Qed.

Lemma yearSplitLoop_raises recs startYear endYear acc :
  Exists (fun R => ¬ hasYear R) recs →
  yearSplitLoop recs startYear endYear false acc = Raise TypeError.
Proof.
  revert acc. induction recs as [|R0 recs IH]; intros acc H; simpl.
  - by inversion H.
  - destruct (get R0 "year") eqn:Hy; try done.
    apply IH. inversion H as [?? Hn|]; [|done].
    exfalso. apply Hn. by exists z.
Qed.

(** C7: when missing years are dropped, or no year is missing,
    [yearSplit] returns the records of the collection whose year lies in
    the range, bounds included; when a record has no year and missing
    years are not dropped, it raises [TypeError], a [TypeMismatch]. *)
Theorem yearSplit_range (self : RecordCollection) (order : list Rec)
    (startYear endYear : Z) (dropMissingYears : bool) :
  iterates self order →
  ((dropMissingYears = true ∨ ∀ R, R ∈ _Records self → hasYear R) →
   ∃ rc, yearSplit self order startYear endYear dropMissingYears = Ok rc ∧
         ∀ R, R ∈ _Records rc ↔ R ∈ _Records self ∧ inYears startYear endYear R) ∧
  (dropMissingYears = false →
   (∃ R, R ∈ _Records self ∧ get R "year" = TNone) →
   yearSplit self order startYear endYear dropMissingYears = Raise TypeError ∧
   taxonomy TypeError = TypeMismatch).
Proof.
  intros Hit. unfold iterates in Hit.
  assert (Hmem : ∀ R, R ∈ order ↔ R ∈ _Records self).
  { intros R. rw Hit. apply elem_of_elements. }
  split.
  - intros Hd. unfold yearSplit.
    destruct (yearSplitLoop_ok order startYear endYear dropMissingYears ∅)
      as (s & Hs & Hin).
    { destruct Hd as [?|H]; [by left | right].
      apply Forall_forall. intros R HR. apply H. by apply Hmem. }
    rw Hs /=. eexists. split; [done|]. simpl. intros R.
    rw Hin -Hmem. set_solver.
  - intros -> (R & HR & Hy). split; [|done].
    unfold yearSplit. rw yearSplitLoop_raises //.
    apply Exists_exists. exists R. split; [by apply Hmem|].
    intros (y & Hy'). congruence.
Qed.

(** ** Keywords: what the test of [filterCites] decides *)

Lemma prefix_app (k t : string) :
  String.prefix k t = true ↔ ∃ post, t = k +:+ post.
Proof.
  revert t. induction k as [|a k IH]; intros t.
  - split; [intros _; by exists t | by destruct t].
  - destruct t as [|b t]; simpl.
    + split; [done | intros [post H]; discriminate].
    + destruct (Ascii.ascii_dec a b) as [-> | Hne].
      * rw IH. split; intros [post H]; exists post; [by rw H | by injection H].
      * split; [done | intros [post H]; by injection H].
Qed.

Lemma contains_app (k text : string) :
  contains k text = true ↔ ∃ pre post, text = pre +:+ k +:+ post.
Proof.
  induction text as [|b text IH]; cbn [contains]; rw orb_true_iff prefix_app.
  - split.
    + intros [[post H] | H]; [by exists "", post | done].
    + intros ([|? pre] & post & H); [left; by exists post | discriminate].
  - rw IH. split.
    + intros [[post H] | (pre & post & H)]; [by exists "", post|].
      exists (String b pre), post. by rw H.
    + intros ([|a pre] & post & H); [left; by exists post|].
      right. exists pre, post. by injection H.
Qed.

Lemma upper_app (s t : string) : upper (s +:+ t) = upper s +:+ upper t.
Proof. induction s as [|a s IH]; simpl; [done | by rw IH]. Qed.

Lemma upper_split (s x y : string) :
  upper s = x +:+ y → ∃ a b, s = a +:+ b ∧ upper a = x ∧ upper b = y.
Proof.
  revert s. induction x as [|c x IH]; intros s H; simpl in *.
  - by exists "", s.
  - destruct s as [|d s]; [discriminate|]. simpl in H. injection H as Hc H.
    destruct (IH s H) as (a & b & -> & Ha & Hb).
    exists (String d a), b. by rw /= Hc Ha.
Qed.

Lemma upper_ascii_ci (a b : ascii) : upper_ascii a = upper_ascii b ↔ ci_char a b.
Proof.
  unfold upper_ascii, ci_char, is_lower.
  pose proof (N_ascii_bounded a) as Ba. pose proof (N_ascii_bounded b) as Bb.
  assert (Hinj : ∀ x y : ascii, N_of_ascii x = N_of_ascii y → x = y).
  { intros x y H. by rw -(ascii_N_embedding x) -(ascii_N_embedding y) H. }
  assert (Hemb : ∀ n, (n < 256)%N → N_of_ascii (ascii_of_N n) = n)
    by apply N_ascii_embedding.
  destruct ((97 <=? N_of_ascii a) && (N_of_ascii a <=? 122))%N eqn:Ha;
    destruct ((97 <=? N_of_ascii b) && (N_of_ascii b <=? 122))%N eqn:Hb;
    rw ?andb_true_iff ?andb_false_iff ?N.leb_le ?N.leb_gt in Ha;
    rw ?andb_true_iff ?andb_false_iff ?N.leb_le ?N.leb_gt in Hb.
  - split.
    + intros H%(f_equal N_of_ascii). rw !Hemb in H; try lia.
      left. apply Hinj. lia.
    + intros [-> | [[_ H] | [_ H]]]; [done | lia..].
  - split.
    + intros H%(f_equal N_of_ascii). rw Hemb in H; lia.
    + intros [-> | [[_ H] | [? H]]]; [lia | | lia].
      apply Hinj. rw Hemb; lia.
  - split.
    + intros H%(f_equal N_of_ascii). rw Hemb in H; lia.
    + intros [-> | [[? H] | [_ H]]]; [lia | lia |].
      apply Hinj. rw Hemb; lia.
  - split; [by left|]. intros [-> | [[? H] | [? H]]]; [done | lia..].
Qed.

Lemma upper_ci (s t : string) : upper s = upper t ↔ ci_eq s t.
Proof.
  split.
  - revert t. induction s as [|a s IH]; intros [|b t] H; try discriminate.
    + constructor.
    + simpl in H. injection H as Hc H. constructor; [by apply upper_ascii_ci | by apply IH].
  - induction 1 as [|a b s t Hc _ IH]; simpl; [done|].
    apply upper_ascii_ci in Hc. by rw Hc IH.
Qed.

Lemma contains_upper (k text : string) :
  contains (upper k) (upper text) = true ↔ ci_substring k text.
Proof.
  rw contains_app. unfold ci_substring. split.
  - intros (pre' & post' & H).
    apply upper_split in H as (pre & rest & -> & _ & H).
    apply upper_split in H as (mid & post & -> & Hm & _).
    exists pre, mid, post. split; [done|]. apply upper_ci. by rw Hm.
  - intros (pre & mid & post & -> & H%upper_ci).
    exists (upper pre), (upper post). by rw !upper_app H.
Qed.

Lemma found_mentions str_upper keyWords c :
  found str_upper keyWords c = true ↔ mentions str_upper keyWords c.
Proof.
  unfold found, mentions, substring. destruct keyWords as [|s|l]; simpl.
  - split; [done | intros (k & Hk & _); by apply elem_of_nil in Hk].
  - rw contains_app. split.
    + intros H. exists s. split; [apply list_elem_of_singleton; done | done].
    + intros (k & Hk%list_elem_of_singleton & H). by subst.
  - rw existsb_exists. split.
    + intros (k & Hk & H). exists k. split; [by apply list_elem_of_In|].
      by apply contains_app.
    + intros (k & Hk & H). exists k. split; [by apply list_elem_of_In|].
      by apply contains_app.
Qed.

(** On ASCII text a keyword is mentioned exactly when it occurs in the
    text up to the case of the letters. *)
Lemma mentions_ascii str_upper keyWords c :
  upper_on_ascii str_upper →
  ascii_text (cite_str c) → Forall ascii_text (keywords keyWords) →
  mentions str_upper keyWords c ↔
  ∃ k, k ∈ keywords keyWords ∧ ci_substring k (cite_str c).
Proof.
  intros Hup Hc Hks. unfold mentions, substring.
  split; intros (k & Hk & H); exists k; (split; [done|]);
    pose proof (proj1 (Forall_forall _ _) Hks k Hk) as Hka.
  - apply contains_upper, contains_app. by rw -(Hup k) // -(Hup (cite_str c)).
  - apply contains_upper, contains_app in H. by rw (Hup k) // (Hup (cite_str c)).
Qed.

Lemma filterCites_filter cite_eqb str_upper cites nt dropAnon dropNonJournals keyWords coreCites :
  filterCites cite_eqb str_upper cites nt dropAnon dropNonJournals keyWords coreCites =
  List.filter (keepCite cite_eqb str_upper nt dropAnon dropNonJournals keyWords coreCites) cites.
Proof.
  induction cites as [|c cites IH]; simpl; [done|]. rw IH. by destruct (keepCite _ _ _ _ _ _ _ _).
Qed.

Lemma filterCites_In cite_eqb str_upper cites nt dropAnon dropNonJournals keyWords coreCites c :
  In c (filterCites cite_eqb str_upper cites nt dropAnon dropNonJournals keyWords coreCites) ↔
  In c cites ∧ keepCite cite_eqb str_upper nt dropAnon dropNonJournals keyWords coreCites c = true.
Proof. rw filterCites_filter. apply filter_In. Qed.

(** C5: with a non-empty keyword string or list, a citation whose text
    contains a keyword, case ignored, is left out of the filtered list,
    and one that contains none and passes the checks that are enabled
    besides the keywords is in it.  Case is ignored as [str.upper] does
    it, for all text; on ASCII text this is the agreement of the keyword
    with a part of the text letter by letter, up to case. *)
Theorem filter_polarity (cite_eqb : Citation → Citation → bool)
    (str_upper : string → string)
    (cites : list Citation) (nt : nodeType) (dropAnon dropNonJournals : bool)
    (keyWords : keyWordsArg) (coreCites : option (list Citation)) (c : Citation) :
  keyWords_truthy keyWords = true →
  In c cites →
  (mentions str_upper keyWords c →
   ¬ In c (filterCites cite_eqb str_upper cites nt dropAnon dropNonJournals keyWords
             coreCites)) ∧
  (¬ mentions str_upper keyWords c →
   keepCite cite_eqb str_upper nt dropAnon dropNonJournals KWNone coreCites c = true →
   In c (filterCites cite_eqb str_upper cites nt dropAnon dropNonJournals keyWords
           coreCites)) ∧
  (upper_on_ascii str_upper →
   ascii_text (cite_str c) → Forall ascii_text (keywords keyWords) →
   (mentions str_upper keyWords c ↔
    ∃ k, k ∈ keywords keyWords ∧ ci_substring k (cite_str c))).
Proof.
  intros Hkw Hin. split; [|split; [|apply mentions_ascii]].
  - rw filterCites_In -found_mentions. unfold keepCite. rw Hkw /=.
    intros Hf [_ Hk]. rw Hf in Hk.
    repeat match type of Hk with (if ?b then _ else _) = _ => destruct b end; done.
  - rw filterCites_In -found_mentions. unfold keepCite. rw Hkw /=.
    intros Hf%not_true_is_false Hk. split; [done|]. rw Hf.
    repeat match type of Hk with (if ?b then _ else _) = _ => destruct b end; done.
Qed.

(** ** Association lists *)

Section alist_facts.
Context {K V : Type} `{EqDecision K}.
Implicit Types (k : K) (v : V) (l : list (K * V)).

Lemma alist_get_set_eq k v l : alist_get k (alist_set k v l) = Some v.
Proof.
  induction l as [|[k' v'] l IH]; simpl; [by rw decide_True|].
  destruct (decide (k = k')) as [->|Hne]; simpl; [by rw decide_True|].
  by rw decide_False.
Qed.

Lemma alist_get_set_ne k k' v l :
  k' ≠ k → alist_get k' (alist_set k v l) = alist_get k' l.
Proof.
  intros Hne. induction l as [|[k0 v0] l IH]; simpl; [by rw decide_False|].
  destruct (decide (k = k0)) as [->|Hne0]; simpl.
  - by rw !decide_False.
  - by rw IH.
Qed.

Lemma alist_mem_set k k' v l :
  alist_mem k' (alist_set k v l) = bool_decide (k' = k) || alist_mem k' l.
Proof.
  unfold alist_mem. destruct (decide (k' = k)) as [->|Hne].
  - by rw alist_get_set_eq bool_decide_eq_true_2.
  - by rw alist_get_set_ne // bool_decide_eq_false_2.
Qed.

Lemma alist_mem_get k l : alist_mem k l = false ↔ alist_get k l = None.
Proof. unfold alist_mem. by destruct (alist_get k l). Qed.

Lemma length_alist_set k v l : (length l ≤ length (alist_set k v l))%nat.
Proof.
  induction l as [|[k' v'] l IH]; simpl; [lia|].
  destruct (decide (k = k')); simpl; lia.
Qed.

Lemma length_alist_set_new k v l :
  alist_get k l = None → length (alist_set k v l) = S (length l).
Proof.
  induction l as [|[k' v'] l IH]; simpl; [done|].
  destruct (decide (k = k')); [done|]. intros H. simpl. by rw IH.
Qed.

Lemma length_alist_set_old k v l :
  alist_mem k l = true → length (alist_set k v l) = length l.
Proof.
  unfold alist_mem. induction l as [|[k' v'] l IH]; simpl; [done|].
  destruct (decide (k = k')); [done|]. intros H. simpl. by rw IH.
Qed.

(** A sum over the entries does not shrink when the entry of [k] is
    replaced by one that counts for no less. *)
Lemma sum_alist_set (f : K * V → nat) k v l :
  (∀ old, alist_get k l = Some old → (f (k, old) ≤ f (k, v))%nat) →
  (sum_list (map f l) ≤ sum_list (map f (alist_set k v l)))%nat.
Proof.
  induction l as [|[k' v'] l IH]; simpl; [lia|].
  destruct (decide (k = k')) as [<-|Hne]; simpl; intros Hf.
  - specialize (Hf v' eq_refl). lia.
  - specialize (IH Hf). lia.
Qed.
End alist_facts.

(** ** What the graph operations preserve *)

Arguments add_node : simpl never.
Arguments add_edge : simpl never.
Arguments ensure_node : simpl never.
Arguments incr_count : simpl never.
Arguments incr_weight : simpl never.
Arguments bump_edge : simpl never.
Arguments add_edges_from : simpl never.
Arguments new_dict : simpl never.

Lemma wf_nx_Graph : wf nx_Graph.
Proof. done. Qed.

Lemma wf_nx_DiGraph : wf nx_DiGraph.
Proof. done. Qed.

Lemma grows_refl G : grows G G.
Proof. by split. Qed.

Lemma grows_trans G1 G2 G3 : grows G1 G2 → grows G2 G3 → grows G1 G3.
Proof.
  intros [] []. split; try (etrans; eassumption); eauto.
Qed.

Lemma grows_number_of_edges G G' :
  grows G G' → (number_of_edges G ≤ number_of_edges G')%nat.
Proof.
  intros []. unfold number_of_edges. rw grows_directed0.
  destruct (directed G); [done|]. by apply Nat.Div0.div_le_mono.
Qed.

Lemma steps_refl P G : steps P G G.
Proof. apply rtc_refl. Qed.

Lemma steps_trans P G1 G2 G3 : steps P G1 G2 → steps P G2 G3 → steps P G1 G3.
Proof. apply rtc_trans. Qed.

Lemma steps_one P G G' : prim P G G' → steps P G G'.
Proof. apply rtc_once. Qed.

Lemma degree_set u v r (l : list (pyval * nat)) :
  (degree (u, l) ≤ degree (u, alist_set v r l))%nat.
Proof.
  unfold degree. simpl. pose proof (length_alist_set v r l).
  rw alist_mem_set. destruct (alist_mem u l); simpl; [|lia].
  rw orb_true_r. lia.
Qed.

Lemma ensure_node_spec G n :
  wf G →
  wf (ensure_node G n) ∧ grows G (ensure_node G n) ∧
  has_node (ensure_node G n) n = true ∧
  ∀ m, has_node (ensure_node G n) m = true → has_node G m = true ∨ m = n.
Proof.
  intros Hwf. unfold ensure_node. destruct (has_node G n) eqn:Hn.
  { repeat split; auto using grows_refl; done. }
  unfold has_node in *. simpl.
  assert (Hadj : alist_get n (adj G) = None).
  { apply alist_mem_get. by rw Hwf. }
  split; [|split; [|split]].
  - intros m. simpl. by rw !alist_mem_set Hwf.
  - split; simpl; try done.
    + apply length_alist_set.
    + apply sum_alist_set. intros old. by rw Hadj.
    + apply sum_alist_set. intros old. by rw Hadj.
    + intros m Hm. unfold has_node in *. simpl. rw alist_mem_set Hm. apply orb_true_r.
    + intros u v. unfold has_edge, nbrs. simpl.
      destruct (decide (u = n)) as [->|Hne]; [by rw Hadj|].
      by rw alist_get_set_ne.
  - by rw alist_mem_set bool_decide_eq_true_2.
  - intros m. rw alist_mem_set.
    intros [Hm%bool_decide_eq_true | Hm]%orb_true_iff; auto.
Qed.

Lemma set_nbr_mem a u v r m :
  alist_mem m (set_nbr a u v r) = bool_decide (m = u) || alist_mem m a.
Proof. unfold set_nbr. apply alist_mem_set. Qed.

Lemma set_nbr_sum (f : pyval * list (pyval * nat) → nat) a u v r :
  (∀ l, f (u, l) ≤ f (u, alist_set v r l))%nat →
  (sum_list (map f a) ≤ sum_list (map f (set_nbr a u v r)))%nat.
Proof.
  intros Hf. unfold set_nbr. apply sum_alist_set. intros old ->. apply Hf.
Qed.

Lemma set_nbr_edge a u v r x y :
  match alist_get x a with Some l => alist_mem y l | None => false end = true →
  match alist_get x (set_nbr a u v r) with Some l => alist_mem y l | None => false end = true.
Proof.
  unfold set_nbr. destruct (decide (x = u)) as [->|Hne].
  - rw alist_get_set_eq. destruct (alist_get u a); [|done].
    simpl. intros H. rw alist_mem_set H. apply orb_true_r.
  - by rw alist_get_set_ne.
Qed.

Lemma add_edge_spec G u v attr :
  wf G →
  wf (add_edge G u v attr) ∧ grows G (add_edge G u v attr) ∧
  ∀ m, has_node (add_edge G u v attr) m = true → has_node G m = true ∨ m = u ∨ m = v.
Proof.
  intros Hwf. unfold add_edge.
  destruct (ensure_node_spec G u Hwf) as (Hwf1 & Hg1 & Hu & Hn1).
  destruct (ensure_node_spec (ensure_node G u) v Hwf1) as (Hwf2 & Hg2 & Hv & Hn2).
  set (G1 := ensure_node (ensure_node G u) v) in *.
  assert (Hu1 : has_node G1 u = true) by by apply Hg2.
  set (Gr := match edge_ref G1 u v with
             | Some r => _
             | None => _
             end).
  assert (HGr : node Gr.1 = node G1 ∧ adj Gr.1 = adj G1 ∧ directed Gr.1 = directed G1).
  { unfold Gr. by destruct (edge_ref G1 u v). }
  destruct Gr as [G2 r]. simpl in HGr. destruct HGr as (Hnode & Hadj & Hdir).
  set (a1 := set_nbr (adj G2) u v r).
  set (a2 := if directed G2 then a1 else set_nbr a1 v u r).
  assert (Hmem : ∀ m, alist_mem m a2 = alist_mem m (adj G1)).
  { intros m. unfold a2, a1. rw Hadj.
    assert (Hum : bool_decide (m = u) || alist_mem m (adj G1) = alist_mem m (adj G1)).
    { destruct (decide (m = u)) as [Hm|Hm]; [|by rw bool_decide_eq_false_2].
      rw bool_decide_eq_true_2 // Hm /= Hwf2. by symmetry. }
    destruct (directed G2); rw ?set_nbr_mem ?Hum //.
    destruct (decide (m = v)) as [Hm|Hm]; [|by rw bool_decide_eq_false_2].
    rw bool_decide_eq_true_2 // Hm /= Hwf2. by symmetry. }
  split; [|split].
  - intros m. simpl. rw Hmem Hnode. apply Hwf2.
  - eapply grows_trans; [exact Hg1|]. eapply grows_trans; [exact Hg2|].
    split; simpl.
    + by rw Hdir.
    + unfold number_of_nodes. by rw Hnode.
    + unfold a2, a1. rw -Hadj.
      assert (∀ a x y, sum_list (map out_size a) ≤ sum_list (map out_size (set_nbr a x y r)))%nat
        as Hs by (intros; apply set_nbr_sum; intros; apply length_alist_set).
      destruct (directed G2); [apply Hs|]. etrans; [apply Hs|]. apply Hs.
    + unfold a2, a1. rw -Hadj.
      assert (∀ a x y, sum_list (map degree a) ≤ sum_list (map degree (set_nbr a x y r)))%nat
        as Hs by (intros; apply set_nbr_sum; intros; apply degree_set).
      destruct (directed G2); [apply Hs|]. etrans; [apply Hs|]. apply Hs.
    + intros m. unfold has_node. simpl. by rw Hnode.
    + intros x y. unfold has_edge, nbrs. simpl. unfold a2, a1. rw -Hadj.
      intros H. destruct (directed G2); by repeat apply set_nbr_edge.
  - intros m. unfold has_node at 1. simpl. rw Hnode. intros Hm.
    destruct (Hn2 m Hm) as [Hm1 | ->]; [|auto].
    destruct (Hn1 m Hm1) as [? | ->]; auto.
Qed.

Lemma add_node_spec G n r :
  wf G →
  wf (add_node G n r) ∧ grows G (add_node G n r) ∧
  has_node (add_node G n r) n = true ∧
  ∀ m, has_node (add_node G n r) m = true → has_node G m = true ∨ m = n.
Proof.
  intros Hwf. unfold add_node. destruct (alist_get n (node G)) as [r'|] eqn:Hn.
  { assert (has_node G n = true) by by rw /has_node /alist_mem Hn.
    repeat split; auto; done. }
  assert (Hadj : alist_get n (adj G) = None).
  { apply alist_mem_get. rw Hwf. by apply alist_mem_get. }
  unfold has_node. simpl. split; [|split; [|split]].
  - intros m. simpl. by rw !alist_mem_set Hwf.
  - split; simpl; try done.
    + apply length_alist_set.
    + apply sum_alist_set. intros old. by rw Hadj.
    + apply sum_alist_set. intros old. by rw Hadj.
    + intros m Hm. unfold has_node in *. simpl. rw alist_mem_set Hm. apply orb_true_r.
    + intros u v. unfold has_edge, nbrs. simpl.
      destruct (decide (u = n)) as [->|Hne]; [by rw Hadj|].
      by rw alist_get_set_ne.
  - by rw alist_mem_set bool_decide_eq_true_2.
  - intros m. rw alist_mem_set.
    intros [Hm%bool_decide_eq_true | Hm]%orb_true_iff; auto.
Qed.

Lemma prim_spec P G G' :
  prim P G G' → wf G →
  wf G' ∧ grows G G' ∧ ∀ m, has_node G' m = true → has_node G m = true ∨ P m.
Proof.
  intros [G0 x | G0 x | G0 n r Hn | G0 u v attr Hu Hv] Hwf.
  - split; [done|]. split; [by split|]. auto.
  - split; [done|]. split; [by split|]. auto.
  - destruct (add_node_spec G0 n r Hwf) as (? & ? & _ & Hm).
    split; [done|]. split; [done|]. intros m [?| ->]%Hm; auto.
  - destruct (add_edge_spec G0 u v attr Hwf) as (? & ? & Hm).
    split; [done|]. split; [done|]. intros m [?| [-> | ->]]%Hm; auto.
Qed.

Lemma steps_spec P G G' :
  steps P G G' → wf G →
  wf G' ∧ grows G G' ∧ ∀ m, has_node G' m = true → has_node G m = true ∨ P m.
Proof.
  induction 1 as [G | G1 G2 G3 H12 _ IH]; intros Hwf.
  - split; [done|]. split; [apply grows_refl|]. auto.
  - destruct (prim_spec _ _ _ H12 Hwf) as (Hwf2 & Hg12 & Hn12).
    destruct (IH Hwf2) as (Hwf3 & Hg23 & Hn23).
    split; [done|]. split; [by eapply grows_trans|].
    intros m [Hm | ?]%Hn23; auto.
Qed.

(** ** The builders are made of these steps *)

Lemma bind_Ok {A B} (r : result A) (k : A → result B) b :
  bind r k = Ok b → ∃ a, r = Ok a ∧ k a = Ok b.
Proof. destruct r as [a|e]; simpl; [by exists a | done]. Qed.

Ltac bind_inv H :=
  let a := fresh "g" in
  let H1 := fresh "H" in
  apply bind_Ok in H as (a & H1 & H).

Section builder_steps.
Variable normalizeToTag : string → string.
Variable cite_eqb : Citation → Citation → bool.
Variable str_upper : string → string.
Variable P : pyval → Prop.

Lemma incr_count_steps G n G' : incr_count G n = Ok G' → steps P G G'.
Proof.
  unfold incr_count. destruct (alist_get n (node G)); [|done].
  intros H. bind_inv H. injection H as <-. apply steps_one, prim_ndata.
Qed.

Lemma incr_weight_steps G u v G' : incr_weight G u v = Ok G' → steps P G G'.
Proof.
  unfold incr_weight. destruct (edge_ref G u v); [|done].
  intros H. bind_inv H. injection H as <-. apply steps_one, prim_edata.
Qed.

Lemma add_edge_steps G u v attr : P u → P v → steps P G (add_edge G u v attr).
Proof. intros. by apply steps_one, prim_add_edge. Qed.

Lemma bump_edge_steps G u v G' :
  P u → P v → bump_edge G u v = Ok G' → steps P G G'.
Proof.
  intros Hu Hv. unfold bump_edge.
  destruct (incr_weight G u v) as [g|e] eqn:Hi.
  - intros [= <-]. by eapply incr_weight_steps.
  - destruct e; try done. intros [= <-]. by apply add_edge_steps.
Qed.

Lemma add_edges_from_steps G ebunch :
  Forall (Pedge P) ebunch → steps P G (add_edges_from G ebunch).
Proof.
  unfold add_edges_from. revert G.
  induction ebunch as [|e ebunch IH]; intros G H; simpl; [apply steps_refl|].
  inversion H as [|?? [? ?] ?]; subst.
  eapply steps_trans; [by apply (add_edge_steps G e.1 e.2 []) | by apply IH].
Qed.

Lemma addCiteNode_steps G n count nt nodeInfo fullInfo ccd cv bump G' :
  P (makeID n nt) →
  addCiteNode cite_eqb G n count nt nodeInfo fullInfo ccd cv bump = Ok G' →
  steps P G G'.
Proof.
  intros HP. unfold addCiteNode. destruct (negb (has_node G (makeID n nt))).
  - intros H. bind_inv H. unfold new_dict in H. injection H as <-.
    eapply steps_trans; [apply steps_one, prim_ndata|].
    by apply steps_one, prim_add_node.
  - destruct (bump && count); [apply incr_count_steps|].
    intros [= <-]. apply steps_refl.
Qed.

Lemma addCiteNodes_steps G nds count nt nodeInfo fullInfo ccd cv G' ids :
  Forall (fun c => P (makeID c nt)) nds →
  addCiteNodes cite_eqb G nds count nt nodeInfo fullInfo ccd cv = Ok (G', ids) →
  steps P G G' ∧ ids = map (fun c => makeID c nt) nds.
Proof.
  revert G G' ids. induction nds as [|n nds IH]; intros G G' ids HP; simpl.
  - intros [= <- <-]. split; [apply steps_refl | done].
  - inversion HP as [|?? Hn Hnds]; subst.
    intros H. bind_inv H. bind_inv H. destruct g0 as [g1 ids1].
    injection H as <- <-. simpl.
    apply addCiteNode_steps in H0; [|done].
    destruct (IH _ _ _ Hnds H1) as [Hs ->].
    split; [by eapply steps_trans | done].
Qed.

Lemma linkTo_steps G weighted u vs acc G' acc' :
  P u → Forall P vs → Forall (Pedge P) acc →
  linkTo G weighted u vs acc = Ok (G', acc') →
  steps P G G' ∧ Forall (Pedge P) acc'.
Proof.
  intros Hu. revert G acc. induction vs as [|v vs IH]; intros G acc Hvs Hacc; simpl.
  - intros [= <- <-]. split; [apply steps_refl | done].
  - inversion Hvs as [|?? Hv Hvs']; subst. destruct weighted.
    + intros H. bind_inv H. apply bump_edge_steps in H0; [|done..].
      destruct (IH _ _ Hvs' Hacc H) as [Hs ?].
      split; [by eapply steps_trans | done].
    + destruct (nbrs G u) as [l|]; [|done]. apply IH; [done|].
      destruct (alist_mem v l); [done|].
      apply Forall_app. split; [done|]. by repeat constructor.
Qed.

Lemma linkPairs_steps G weighted idList acc G' acc' :
  Forall P idList → Forall (Pedge P) acc →
  linkPairs G weighted idList acc = Ok (G', acc') →
  steps P G G' ∧ Forall (Pedge P) acc'.
Proof.
  revert G acc. induction idList as [|u rest IH]; intros G acc Hids Hacc; simpl.
  - intros [= <- <-]. split; [apply steps_refl | done].
  - inversion Hids as [|?? Hu Hrest]; subst.
    intros H. bind_inv H. destruct g as [g1 acc1]. simpl in H.
    destruct (linkTo_steps _ _ _ _ _ _ _ Hu Hrest Hacc H0) as [Hs1 Hacc1].
    destruct (IH _ _ Hrest Hacc1 H) as [Hs2 ?].
    split; [by eapply steps_trans | done].
Qed.

Lemma addToNetwork_steps G nds count weighted nt nodeInfo fullInfo ccd cv headNd G' :
  Forall (fun c => P (makeID c nt)) nds →
  (∀ h, headNd = Some h → P (makeID h nt)) →
  addToNetwork cite_eqb G nds count weighted nt nodeInfo fullInfo ccd cv headNd = Ok G' →
  steps P G G'.
Proof.
  intros Hnds Hh. unfold addToNetwork. intros H.
  bind_inv H. destruct g as [g1 hID]. simpl in H.
  bind_inv H. destruct g as [g2 idList]. simpl in H.
  bind_inv H. destruct g as [g3 addedEdges]. simpl in H. injection H as <-.
  assert (Hs1 : steps P G g1 ∧ (truthy hID = true → P hID)).
  { destruct headNd as [h|].
    - bind_inv H0. injection H0 as <- <-.
      split; [|by intros _; apply Hh].
      eapply addCiteNode_steps; [|done]. by apply Hh.
    - injection H0 as <- <-. split; [apply steps_refl | done]. }
  destruct Hs1 as [Hs1 HhID].
  destruct (addCiteNodes_steps _ _ _ _ _ _ _ _ _ _ Hnds H1) as [Hs2 ->].
  assert (Hids : Forall P (map (fun c => makeID c nt) nds)).
  { by apply Forall_map. }
  assert (Hs3 : steps P g2 g3 ∧ Forall (Pedge P) addedEdges).
  { destruct (truthy hID) eqn:Ht.
    - eapply linkTo_steps; [by apply HhID | done | done | done].
    - destruct (1 <? length (map (fun c => makeID c nt) nds))%nat.
      + by eapply linkPairs_steps.
      + injection H2 as <- <-. split; [apply steps_refl | done]. }
  destruct Hs3 as [Hs3 Hedges].
  eapply steps_trans; [exact Hs1|]. eapply steps_trans; [exact Hs2|].
  eapply steps_trans; [exact Hs3|]. by apply add_edges_from_steps.
Qed.
End builder_steps.

(** A citation that passes the filter has an identity other than [None]. *)
Lemma keepCite_makeID cite_eqb str_upper nt dropAnon dropNonJournals keyWords coreCites c :
  keepCite cite_eqb str_upper nt dropAnon dropNonJournals keyWords coreCites c = true →
  makeID c nt ≠ PNone.
Proof.
  unfold keepCite. destruct nt as [|f]; simpl; [done|].
  destruct (getattr c f); simpl; done.
Qed.

Lemma filterCites_makeID cite_eqb str_upper cites nt dropAnon dropNonJournals keyWords coreCites :
  Forall (fun c => makeID c nt ≠ PNone)
    (filterCites cite_eqb str_upper cites nt dropAnon dropNonJournals keyWords coreCites).
Proof.
  rw filterCites_filter. apply Forall_forall.
  intros c [_ Hc]%list_elem_of_In%filter_In. by eapply keepCite_makeID.
Qed.

Section network_steps.
Variable normalizeToTag : string → string.
Variable cite_eqb : Citation → Citation → bool.
Variable str_upper : string → string.

Lemma coCiteLoop_steps G recs nt dropAnon nodeInfo fullInfo weighted dropNonJournals
    count keyWords coreCites ccd cv G' :
  coCiteLoop cite_eqb str_upper G recs nt dropAnon nodeInfo fullInfo weighted dropNonJournals
    count keyWords coreCites ccd cv = Ok G' →
  steps notNone G G'.
Proof.
  revert G. induction recs as [|R recs IH]; intros G; simpl.
  - intros [= <-]. apply steps_refl.
  - intros H. bind_inv H. eapply steps_trans; [|by apply IH].
    destruct (get R "citations") as [| | | |[|c cs]];
      try (injection H0 as <-; apply steps_refl).
    eapply addToNetwork_steps; [| |done]; [|done].
    apply (filterCites_makeID cite_eqb str_upper (c :: cs)).
Qed.

Lemma citationLoop_steps G recs nt dropAnon nodeInfo fullInfo weighted dropNonJournals
    count keyWords coreCites ccd cv G' :
  citationLoop cite_eqb str_upper G recs nt dropAnon nodeInfo fullInfo weighted dropNonJournals
    count keyWords coreCites ccd cv = Ok G' →
  steps notNone G G'.
Proof.
  revert G. induction recs as [|R recs IH]; intros G; simpl.
  - intros [= <-]. apply steps_refl.
  - intros H. bind_inv H. eapply steps_trans; [|by apply IH].
    destruct (keepCite cite_eqb str_upper nt dropAnon dropNonJournals keyWords coreCites
                (createCitation R)) eqn:Hk; simpl in H0;
      [|injection H0 as <-; apply steps_refl].
    destruct (get R "citations") as [| | | |[|c cs]];
      try (injection H0 as <-; apply steps_refl).
    eapply addToNetwork_steps; [| |done].
    + apply (filterCites_makeID cite_eqb str_upper (c :: cs)).
    + intros h [= <-]. by eapply keepCite_makeID.
Qed.

Lemma copyEdges_steps G citeID1 citeID2 seen len0 i todo G' :
  copyEdges G citeID1 citeID2 seen len0 i todo = Ok G' → steps anyNode G G'.
Proof.
  revert G i. induction todo as [|todo IH]; intros G i; simpl.
  - intros [= <-]. apply steps_refl.
  - destruct (default [] (nbrs G citeID1) !! i) as [[e2 r]|];
      [|intros [= <-]; apply steps_refl].
    case_bool_decide; [by apply IH|].
    case_decide; [|done]. intros Hc%IH.
    eapply steps_trans; [|done]. by apply add_edge_steps.
Qed.

Lemma copyAllEdges_steps G citeID2 seen n0 j todo G' :
  copyAllEdges G citeID2 seen n0 j todo = Ok G' → steps anyNode G G'.
Proof.
  revert G seen j. induction todo as [|todo IH]; intros G seen j; simpl.
  - intros [= <-]. apply steps_refl.
  - destruct (adj G !! j) as [[n l]|]; [|intros [= <-]; apply steps_refl].
    intros H. bind_inv H. case_decide; [|done].
    apply copyEdges_steps in H0. apply IH in H. by eapply steps_trans.
Qed.

Lemma copyEdgesOf_steps G citeID1 citeID2 G' :
  copyEdgesOf G citeID1 citeID2 = Ok G' → steps anyNode G G'.
Proof.
  unfold copyEdgesOf. case_decide.
  - apply copyAllEdges_steps.
  - apply copyEdges_steps.
Qed.

Lemma expandInner_steps G weighted citeID1 rest G' :
  expandInner G weighted citeID1 rest = Ok G' → steps anyNode G G'.
Proof.
  revert G. induction rest as [|citeID2 rest IH]; intros G; simpl.
  - intros [= <-]. apply steps_refl.
  - intros H. bind_inv H. bind_inv H.
    apply copyEdgesOf_steps in H1. apply IH in H.
    assert (Hs : steps anyNode G g).
    { destruct (negb (has_node G citeID2)).
      - destruct (alist_get citeID1 (node G)) as [r|]; [|done]. injection H0 as <-.
        apply (steps_trans _ _ (add_node G citeID2 r)).
        + by apply steps_one, prim_add_node.
        + by apply add_edge_steps.
      - destruct weighted; [by eapply bump_edge_steps|].
        injection H0 as <-. apply steps_refl. }
    eapply steps_trans; [exact Hs|]. by eapply steps_trans.
Qed.

Lemma expandOuter_steps G weighted fullCiteList G' :
  expandOuter G weighted fullCiteList = Ok G' → steps anyNode G G'.
Proof.
  revert G. induction fullCiteList as [|citeID1 rest IH]; intros G; simpl.
  - intros [= <-]. apply steps_refl.
  - intros H. bind_inv H. apply IH in H. eapply steps_trans; [|done].
    destruct (has_node G citeID1); [by eapply expandInner_steps|].
    injection H0 as <-. apply steps_refl.
Qed.

Lemma expandRecs_steps G RecCollect nt weighted G' :
  expandRecs G RecCollect nt weighted = Ok G' → steps anyNode G G'.
Proof.
  revert G. induction RecCollect as [|R rest IH]; intros G; simpl.
  - intros [= <-]. apply steps_refl.
  - intros H. bind_inv H. apply IH in H. eapply steps_trans; [|done].
    destruct (1 <? _)%nat; [by eapply expandOuter_steps|].
    injection H0 as <-. apply steps_refl.
Qed.
End network_steps.

(** ** What the builders return *)

Section network_facts.
Variable normalizeToTag : string → string.
Variable cite_eqb : Citation → Citation → bool.
Variable str_upper : string → string.

Lemma steps_from_empty P G0 G :
  node G0 = [] → adj G0 = [] → steps P G0 G →
  wf G ∧ ∀ m, has_node G m = true → P m.
Proof.
  intros Hn Ha Hs. assert (Hwf : wf G0) by (intros m; by rw Hn Ha).
  destruct (steps_spec _ _ _ Hs Hwf) as (? & _ & Hm). split; [done|].
  intros m [Hm0 | ?]%Hm; [|done]. by rw /has_node Hn in Hm0.
Qed.

(** Before core expansion, the graph of [coCiteNetwork] is well formed
    and [None] is no node of it. *)
Lemma coCiteNetwork_nodes self dropAnon nodeType nodeInfo fullInfo weighted
    dropNonJournals count keyWords detailedCore coreOnly G :
  coCiteNetwork normalizeToTag cite_eqb str_upper self dropAnon nodeType nodeInfo fullInfo
    weighted dropNonJournals count keyWords detailedCore coreOnly false = Ok G →
  wf G ∧ has_node G PNone = false.
Proof.
  unfold coCiteNetwork. destruct (nodeType_of_string nodeType) as [nt|]; [|done].
  destruct (coreOf _ _ _ _) as [ccd cc].
  intros H. bind_inv H. injection H as <-.
  apply coCiteLoop_steps in H0.
  apply steps_from_empty in H0 as [Hwf Hm]; [|done..].
  split; [done|]. destruct (has_node g PNone) eqn:Hn; [|done].
  by destruct (Hm _ Hn).
Qed.

Lemma citationNetwork_nodes self dropAnon nodeType nodeInfo fullInfo weighted
    dropNonJournals count directed keyWords detailedCore coreOnly G :
  citationNetwork normalizeToTag cite_eqb str_upper self dropAnon nodeType nodeInfo fullInfo
    weighted dropNonJournals count directed keyWords detailedCore coreOnly false = Ok G →
  wf G ∧ has_node G PNone = false.
Proof.
  unfold citationNetwork. destruct (nodeType_of_string nodeType) as [nt|]; [|done].
  destruct (coreOf _ _ _ _) as [ccd cc].
  intros H. bind_inv H. injection H as <-.
  apply citationLoop_steps in H0.
  apply steps_from_empty in H0 as [Hwf Hm]; [|by destruct directed..].
  split; [done|]. destruct (has_node g PNone) eqn:Hn; [|done].
  by destruct (Hm _ Hn).
Qed.

(** Core expansion keeps a graph well formed and only adds to it. *)
Lemma expandRecs_grows G RecCollect nt weighted G' :
  wf G → expandRecs G RecCollect nt weighted = Ok G' → wf G' ∧ grows G G'.
Proof.
  intros Hwf H%expandRecs_steps.
  destruct (steps_spec _ _ _ H Hwf) as (? & ? & _). by split.
Qed.
End network_facts.

(** ** Citations without the requested field *)

(** In a node mode that names a field, a citation passes the filter
    only with a value of the field that is neither missing nor empty. *)
Lemma keepCite_truthy cite_eqb str_upper f dropAnon dropNonJournals keyWords coreCites c :
  keepCite cite_eqb str_upper (by_field f) dropAnon dropNonJournals keyWords coreCites c = true →
  truthy (getattr c f) = true.
Proof. unfold keepCite. by destruct (truthy (getattr c f)). Qed.

Lemma filterCites_truthy cite_eqb str_upper cites f dropAnon dropNonJournals keyWords coreCites :
  Forall (fun c => truthy (makeID c (by_field f)) = true)
    (filterCites cite_eqb str_upper cites (by_field f) dropAnon dropNonJournals keyWords coreCites).
Proof.
  rw filterCites_filter. apply Forall_forall.
  intros c [_ Hc]%list_elem_of_In%filter_In. by eapply keepCite_truthy.
Qed.

Section field_nodes.
Variable cite_eqb : Citation → Citation → bool.
Variable str_upper : string → string.

Lemma coCiteLoop_truthy G recs f dropAnon nodeInfo fullInfo weighted dropNonJournals
    count keyWords coreCites ccd cv G' :
  coCiteLoop cite_eqb str_upper G recs (by_field f) dropAnon nodeInfo fullInfo weighted
    dropNonJournals count keyWords coreCites ccd cv = Ok G' →
  steps (fun k => truthy k = true) G G'.
Proof.
  revert G. induction recs as [|R recs IH]; intros G; simpl.
  - intros [= <-]. apply steps_refl.
  - intros H. bind_inv H. eapply steps_trans; [|by apply IH].
    destruct (get R "citations") as [| | | |[|c cs]];
      try (injection H0 as <-; apply steps_refl).
    eapply addToNetwork_steps; [| |done]; [|done].
    apply (filterCites_truthy cite_eqb str_upper (c :: cs)).
Qed.

Lemma citationLoop_truthy G recs f dropAnon nodeInfo fullInfo weighted dropNonJournals
    count keyWords coreCites ccd cv G' :
  citationLoop cite_eqb str_upper G recs (by_field f) dropAnon nodeInfo fullInfo weighted
    dropNonJournals count keyWords coreCites ccd cv = Ok G' →
  steps (fun k => truthy k = true) G G'.
Proof.
  revert G. induction recs as [|R recs IH]; intros G; simpl.
  - intros [= <-]. apply steps_refl.
  - intros H. bind_inv H. eapply steps_trans; [|by apply IH].
    destruct (keepCite cite_eqb str_upper (by_field f) dropAnon dropNonJournals keyWords coreCites
                (createCitation R)) eqn:Hk; simpl in H0;
      [|injection H0 as <-; apply steps_refl].
    destruct (get R "citations") as [| | | |[|c cs]];
      try (injection H0 as <-; apply steps_refl).
    eapply addToNetwork_steps; [| |done].
    + apply (filterCites_truthy cite_eqb str_upper (c :: cs)).
    + intros h [= <-]. by eapply keepCite_truthy.
Qed.
End field_nodes.

(** C2, amended: a citation without the field of the node mode has the
    identity [None].  A citation whose field is missing or empty is
    passed on by no call of [filterCites], and its identity is no node of
    the graph that [coCiteNetwork] or [citationNetwork] builds before
    core expansion; nor is [None] a node of it. *)
Theorem missing_field_excluded (normalizeToTag : string → string)
    (cite_eqb : Citation → Citation → bool)
    (str_upper : string → string) (self : list Rec)
    (dropAnon : bool) (nodeType : string)
    (nodeInfo fullInfo weighted dropNonJournals count directed : bool)
    (keyWords : keyWordsArg) (detailedCore : detailedArg) (coreOnly : bool)
    (f : field) (c : Citation) (G : Graph) :
  nodeType_of_string nodeType = Some (by_field f) →
  truthy (getattr c f) = false →
  coCiteNetwork normalizeToTag cite_eqb str_upper self dropAnon nodeType nodeInfo fullInfo
    weighted dropNonJournals count keyWords detailedCore coreOnly false = Ok G ∨
  citationNetwork normalizeToTag cite_eqb str_upper self dropAnon nodeType nodeInfo fullInfo
    weighted dropNonJournals count directed keyWords detailedCore coreOnly false = Ok G →
  (getattr c f = PNone → makeID c (by_field f) = PNone) ∧
  (∀ cites coreCites,
     ¬ In c (filterCites cite_eqb str_upper cites (by_field f) dropAnon dropNonJournals
               keyWords coreCites)) ∧
  has_node G (makeID c (by_field f)) = false ∧
  has_node G PNone = false.
Proof.
  intros Hnt Hc HG. split; [done|]. split.
  - intros cites coreCites [_ Hk]%filterCites_In.
    apply keepCite_truthy in Hk. congruence.
  - assert (Hm : ∀ m, has_node G m = true → truthy m = true).
    { destruct HG as [HG|HG].
      - unfold coCiteNetwork in HG. rw Hnt in HG.
        destruct (coreOf _ _ _ _) as [ccd cc].
        bind_inv HG. injection HG as <-.
        apply coCiteLoop_truthy in H.
        by destruct (steps_from_empty _ nx_Graph g eq_refl eq_refl H) as [_ Hm].
      - unfold citationNetwork in HG. rw Hnt in HG.
        destruct (coreOf _ _ _ _) as [ccd cc].
        bind_inv HG. injection HG as <-.
        apply citationLoop_truthy in H.
        eapply steps_from_empty in H as [_ Hm]; [done|by destruct directed..]. }
    split.
    + destruct (has_node G (makeID c (by_field f))) eqn:Hn; [|done].
      apply Hm in Hn. cbn [makeID] in Hn. congruence.
    + destruct (has_node G PNone) eqn:Hn; [|done]. by apply Hm in Hn.
Qed.

(** ** Core expansion *)

(** C3, amended: a run of [expandRecs] on a well formed graph, as the
    builders return it, keeps every node and every edge, so that a second
    run has at least the nodes and edges of the first; it can have more. *)
Theorem expandRecs_only_adds (G G1 G2 : Graph) (RecCollect : list Rec)
    (nt : nodeType) (weighted : bool) :
  wf G →
  expandRecs G RecCollect nt weighted = Ok G1 →
  expandRecs G1 RecCollect nt weighted = Ok G2 →
  (number_of_nodes G1 ≤ number_of_nodes G2)%nat ∧
  (number_of_edges G1 ≤ number_of_edges G2)%nat ∧
  (∀ n, has_node G1 n = true → has_node G2 n = true) ∧
  (∀ u v, has_edge G1 u v = true → has_edge G2 u v = true).
Proof.
  intros Hwf H1 H2.
  destruct (expandRecs_grows _ _ _ _ _ Hwf H1) as [Hwf1 _].
  destruct (expandRecs_grows _ _ _ _ _ Hwf1 H2) as [_ Hg].
  split; [apply Hg|]. split; [by apply grows_number_of_edges|].
  split; apply Hg.
Qed.

(** ** The co-citation graph of two records citing the same pair *)

Lemma makeNodeTuple_count cite_eqb c idVal nodeInfo fullInfo nt ccd cv d :
  makeNodeTuple cite_eqb c idVal nodeInfo fullInfo nt true ccd cv = Ok d →
  alist_get "count" d = Some (PInt 1).
Proof.
  unfold makeNodeTuple. intros H. bind_inv H. injection H as <-.
  apply alist_get_set_eq.
Qed.

Lemma Graph_eq G d n a nd ed :
  directed G = d → node G = n → adj G = a → ndata G = nd → edata G = ed →
  G = mkGraph d n a nd ed.
Proof. destruct G; simpl; congruence. Qed.

(** Evaluation with node keys that are variables: the call is reduced to
    the next comparison of two keys, which the hypotheses decide. *)
Ltac whd_lhs :=
  match goal with
  | |- ?l = ?r =>
      let l' := eval lazy head beta iota zeta
                  delta -[makeNodeTuple makeID dict_incr pyval_eq_dec Z.add] in l in
      change (l' = r)
  end.
Ltac key_step :=
  whd_lhs;
  match goal with
  | |- context [pyval_eq_dec ?a ?b] => destruct (pyval_eq_dec a b); [try congruence..]
  end.
Ltac go := repeat key_step; whd_lhs.
Ltac norm := lazy -[makeNodeTuple makeID dict_incr pyval_eq_dec Z.add].
Ltac keys :=
  repeat match goal with
         | |- context [pyval_eq_dec ?a ?b] => destruct (pyval_eq_dec a b); try congruence
         end.
Ltac fields := f_equal; apply Graph_eq; norm; keys; try reflexivity.

Lemma addToNetwork_first_pair a1 a2 cite_eqb count nt nodeInfo fullInfo ccd cv X Y d1 d2 :
  X ≠ Y →
  makeID a1 nt = X → makeID a2 nt = Y →
  makeNodeTuple cite_eqb a1 X nodeInfo fullInfo nt count ccd cv = Ok d1 →
  makeNodeTuple cite_eqb a2 Y nodeInfo fullInfo nt count ccd cv = Ok d2 →
  addToNetwork cite_eqb nx_Graph [a1; a2] count true nt nodeInfo fullInfo ccd cv None
  = Ok (pairGraph X Y [d1; d2] 1).
Proof.
  intros Hne Ha1 Ha2 Hd1 Hd2. subst X Y.
  go. rw Hd1. go. rw Hd2. go. fields.
Qed.

Lemma addToNetwork_second_pair b1 b2 cite_eqb count nt nodeInfo fullInfo ccd cv X Y d1 d2 w :
  X ≠ Y →
  (makeID b1 nt = X ∧ makeID b2 nt = Y ∨ makeID b1 nt = Y ∧ makeID b2 nt = X) →
  (count = true →
   alist_get "count" d1 = Some (PInt 1) ∧ alist_get "count" d2 = Some (PInt 1)) →
  ∃ nd,
    addToNetwork cite_eqb (pairGraph X Y [d1; d2] w) [b1; b2] count true nt nodeInfo
      fullInfo ccd cv None
    = Ok (pairGraph X Y nd (w + 1)).
Proof.
  intros Hne Hb Hc.
  assert (Hi : count = true → ∀ d, d = d1 ∨ d = d2 →
               dict_incr d "count" = Ok (alist_set "count" (PInt 2) d)).
  { intros Ht d Hd. destruct (Hc Ht) as [H1 H2]. unfold dict_incr.
    by destruct Hd as [-> | ->]; rw ?H1 ?H2. }
  destruct count.
  - specialize (Hi eq_refl).
    destruct Hb as [[<- <-]|[<- <-]]; eexists; unfold pairGraph.
    + go. rw Hi; [|by left]. go. rw Hi; [|by right]. go. fields.
    + go. rw Hi; [|by right]. go. rw Hi; [|by left]. go. fields.
  - clear Hi. destruct Hb as [[<- <-]|[<- <-]]; eexists; unfold pairGraph.
    + go. fields.
    + go. fields.
Qed.

Lemma pairGraph_edge X Y nd w :
  X ≠ Y →
  number_of_nodes (pairGraph X Y nd w) = 2%nat ∧
  number_of_edges (pairGraph X Y nd w) = 1%nat ∧
  has_edge (pairGraph X Y nd w) X Y = true ∧
  edge_weight (pairGraph X Y nd w) X Y = Some (PInt w) ∧
  edge_weight (pairGraph X Y nd w) Y X = Some (PInt w).
Proof.
  intros Hne. repeat split; norm; keys; reflexivity.
Qed.

Lemma coCiteLoop_cons cite_eqb str_upper G R rest nt dropAnon nodeInfo fullInfo weighted
    dropNonJournals count keyWords coreCites ccd cv c1 c2 G1 :
  citedBy cite_eqb str_upper R nt dropAnon dropNonJournals keyWords coreCites = [c1; c2] →
  addToNetwork cite_eqb G [c1; c2] count weighted nt nodeInfo fullInfo ccd cv None = Ok G1 →
  coCiteLoop cite_eqb str_upper G (R :: rest) nt dropAnon nodeInfo fullInfo weighted
    dropNonJournals count keyWords coreCites ccd cv =
  coCiteLoop cite_eqb str_upper G1 rest nt dropAnon nodeInfo fullInfo weighted
    dropNonJournals count keyWords coreCites ccd cv.
Proof.
  unfold citedBy. cbn [coCiteLoop].
  destruct (get R "citations") as [| | | |[|c cs]]; try done.
  intros -> ->. done.
Qed.

Lemma round_trip_ordered normalizeToTag cite_eqb str_upper Ra Rb dropAnon mode nt nodeInfo
    fullInfo dropNonJournals count keyWords detailedCore coreOnly a1 a2 b1 b2 X Y :
  let coreValues := tagsOf normalizeToTag detailedCore ["AF"; "PY"; "TI"; "SO"; "VL"; "BP"] in
  let core := coreOf cite_eqb [Ra; Rb] (coreOnly || nonempty coreValues || false) coreOnly in
  nodeType_of_string mode = Some nt →
  citedBy cite_eqb str_upper Ra nt dropAnon dropNonJournals keyWords core.2 = [a1; a2] →
  citedBy cite_eqb str_upper Rb nt dropAnon dropNonJournals keyWords core.2 = [b1; b2] →
  X ≠ Y →
  makeID a1 nt = X → makeID a2 nt = Y →
  identities nt b1 b2 X Y →
  attributes_ok normalizeToTag cite_eqb [Ra; Rb] nt nodeInfo fullInfo count
    detailedCore coreOnly a1 →
  attributes_ok normalizeToTag cite_eqb [Ra; Rb] nt nodeInfo fullInfo count
    detailedCore coreOnly a2 →
  ∃ nd,
    coCiteNetwork normalizeToTag cite_eqb str_upper [Ra; Rb] dropAnon mode nodeInfo fullInfo
      true dropNonJournals count keyWords detailedCore coreOnly false
    = Ok (pairGraph X Y nd 2).
Proof.
  intros coreValues core Hnt Ha Hb Hne Ha1 Ha2 Hid Hok1 Hok2.
  unfold attributes_ok in Hok1, Hok2. cbv zeta in Hok1, Hok2.
  destruct Hok1 as [d1 Hd1], Hok2 as [d2 Hd2].
  unfold coCiteNetwork. rw Hnt. fold coreValues. fold core.
  fold coreValues in Hd1, Hd2. fold core in Hd1, Hd2.
  destruct core as [ccd cc] eqn:Hcore. simpl in Ha, Hb, Hd1, Hd2.
  cbv beta iota zeta.
  rw Ha1 in Hd1. rw Ha2 in Hd2.
  pose proof (addToNetwork_first_pair _ _ _ _ _ _ _ _ _ _ _ _ _ Hne Ha1 Ha2 Hd1 Hd2) as H1.
  destruct (addToNetwork_second_pair b1 b2 cite_eqb count nt nodeInfo fullInfo ccd
              coreValues X Y d1 d2 1 Hne Hid) as [nd H2].
  { intros ->. split; by eapply makeNodeTuple_count. }
  exists nd.
  rw (coCiteLoop_cons _ _ _ _ _ _ _ _ _ _ _ _ _ _ _ _ _ _ _ Ha H1).
  rw (coCiteLoop_cons _ _ _ _ _ _ _ _ _ _ _ _ _ _ _ _ _ _ _ Hb H2).
  done.
Qed.

(** C6: two records whose citations, after the filter, are two citations
    with the distinct identities [X] and [Y]: with weighted edges and
    without core expansion, [coCiteNetwork] returns a graph with the two
    nodes and exactly one edge, between [X] and [Y], of weight 2. *)
Theorem cocitation_round_trip (normalizeToTag : string → string)
    (cite_eqb : Citation → Citation → bool)
    (str_upper : string → string) (Ra Rb : Rec) (dropAnon : bool)
    (mode : string) (nt : nodeType)
    (nodeInfo fullInfo dropNonJournals count : bool) (keyWords : keyWordsArg)
    (detailedCore : detailedArg) (coreOnly : bool)
    (a1 a2 b1 b2 : Citation) (X Y : pyval) :
  let coreValues := tagsOf normalizeToTag detailedCore ["AF"; "PY"; "TI"; "SO"; "VL"; "BP"] in
  let core := coreOf cite_eqb [Ra; Rb] (coreOnly || nonempty coreValues || false) coreOnly in
  nodeType_of_string mode = Some nt →
  citedBy cite_eqb str_upper Ra nt dropAnon dropNonJournals keyWords core.2 = [a1; a2] →
  citedBy cite_eqb str_upper Rb nt dropAnon dropNonJournals keyWords core.2 = [b1; b2] →
  X ≠ Y →
  identities nt a1 a2 X Y →
  identities nt b1 b2 X Y →
  attributes_ok normalizeToTag cite_eqb [Ra; Rb] nt nodeInfo fullInfo count
    detailedCore coreOnly a1 →
  attributes_ok normalizeToTag cite_eqb [Ra; Rb] nt nodeInfo fullInfo count
    detailedCore coreOnly a2 →
  ∃ G,
    coCiteNetwork normalizeToTag cite_eqb str_upper [Ra; Rb] dropAnon mode nodeInfo fullInfo
      true dropNonJournals count keyWords detailedCore coreOnly false = Ok G ∧
    number_of_nodes G = 2%nat ∧
    number_of_edges G = 1%nat ∧
    has_edge G X Y = true ∧
    edge_weight G X Y = Some (PInt 2) ∧
    edge_weight G Y X = Some (PInt 2).
Proof.
  intros coreValues core Hnt Ha Hb Hne Hida Hidb Hok1 Hok2.
  destruct Hida as [[Ha1 Ha2] | [Ha1 Ha2]].
  - destruct (round_trip_ordered normalizeToTag cite_eqb str_upper Ra Rb dropAnon mode nt
                nodeInfo fullInfo dropNonJournals count keyWords detailedCore coreOnly
                a1 a2 b1 b2 X Y Hnt Ha Hb Hne Ha1 Ha2 Hidb Hok1 Hok2) as [nd HG].
    exists (pairGraph X Y nd 2). split; [done|]. by apply pairGraph_edge.
  - assert (Hne' : Y ≠ X) by congruence.
    assert (Hidb' : identities nt b1 b2 Y X) by (unfold identities in *; tauto).
    destruct (round_trip_ordered normalizeToTag cite_eqb str_upper Ra Rb dropAnon mode nt
                nodeInfo fullInfo dropNonJournals count keyWords detailedCore coreOnly
                a1 a2 b1 b2 Y X Hnt Ha Hb Hne' Ha1 Ha2 Hidb' Hok1 Hok2) as [nd HG].
    exists (pairGraph Y X nd 2). split; [done|].
    destruct (pairGraph_edge Y X nd 2 Hne') as (? & ? & He & ? & ?).
    repeat split; try done.
    revert He. norm. keys.
Qed.

(** ** Citation statistics *)

Lemma countCites_withField cite_eqb f cs d :
  countCites cite_eqb (List.filter (hasField f) cs) (Some f) d =
  countCites cite_eqb cs (Some f) d.
Proof.
  revert d. induction cs as [|c cs IH]; intros d; simpl; [done|].
  unfold hasField at 1. destruct (getattr c f) eqn:Hc; simpl; rw ?Hc; apply IH.
Qed.

Lemma countCites_nil cite_eqb f cs d :
  List.filter (hasField f) cs = [] → countCites cite_eqb cs (Some f) d = d.
Proof. intros H. by rw -countCites_withField H. Qed.

Lemma citeStatsLoop_withField cite_eqb f recs d :
  citeStatsLoop cite_eqb (map (withField f) recs) (Some f) d =
  citeStatsLoop cite_eqb recs (Some f) d.
Proof.
  revert d. induction recs as [|R recs IH]; intros d; [done|].
  cbn [map citeStatsLoop].
  assert (get (withField f R) "citations" =
          match citations R with
          | Some l => TCites (List.filter (hasField f) l)
          | None => TNone
          end) as -> by (unfold get; simpl; by destruct (citations R)).
  assert (get R "citations" =
          match citations R with Some l => TCites l | None => TNone end) as ->
    by done.
  destruct (citations R) as [[|c cs]|]; try apply IH.
  destruct (List.filter (hasField f) (c :: cs)) as [|c' cs'] eqn:Hf.
  - rw IH. by rw countCites_nil.
  - rw IH -Hf. by rw countCites_withField.
Qed.

Lemma countKey_counted cite_eqb k d :
  k ≠ KVal PNone → Forall counted d → Forall counted (countKey cite_eqb k d).
Proof.
  intros Hk. induction 1 as [|[k' n] d [Hk' Hn] Hd IH]; simpl.
  - repeat constructor; done.
  - destruct (statKey_eqb cite_eqb k k'); constructor; try done.
    split; [done|]. simpl in *. lia.
Qed.

Lemma countCites_counted cite_eqb kt cs d :
  Forall counted d → Forall counted (countCites cite_eqb cs kt d).
Proof.
  revert d. induction cs as [|c cs IH]; intros d Hd; simpl; [done|].
  destruct kt as [f|]; [|by apply IH, countKey_counted].
  destruct (getattr c f) eqn:Hc; try apply IH; try done;
    apply countKey_counted; done.
Qed.

Lemma citeStatsLoop_counted cite_eqb kt recs d :
  Forall counted d → Forall counted (citeStatsLoop cite_eqb recs kt d).
Proof.
  revert d. induction recs as [|R recs IH]; intros d Hd; [done|].
  cbn [citeStatsLoop].
  destruct (get R "citations") as [| | | |[|c cs]]; try by apply IH.
  by apply IH, countCites_counted.
Qed.

(** C8, amended: for a key type other than the four known ones
    [localCiteStats] raises [TypeError], a [TypeMismatch]; for the key
    types journal, year and author the table has no entry for a missing
    value, every count is at least one, and the citations without the
    attribute can be left out of the records without changing the
    result. *)
Theorem localCiteStats_keys (cite_eqb : Citation → Citation → bool)
    (self : list Rec) (pandasFriendly : bool) (keyType : string) :
  (keyType ∉ ["citation"; "journal"; "year"; "author"] →
   localCiteStats cite_eqb self pandasFriendly keyType = Raise TypeError ∧
   fails_with (localCiteStats cite_eqb self pandasFriendly keyType) TypeMismatch) ∧
  (keyType ∈ ["journal"; "year"; "author"] →
   ∃ f citesDict,
     keyType_of_string keyType = Some (Some f) ∧
     localCiteStats cite_eqb self false keyType = Ok (StatsDict citesDict) ∧
     localCiteStats cite_eqb self true keyType =
       Ok (StatsPandas (map fst citesDict) (map snd citesDict)) ∧
     Forall counted citesDict ∧
     localCiteStats cite_eqb (map (withField f) self) pandasFriendly keyType =
       localCiteStats cite_eqb self pandasFriendly keyType).
Proof.
  split.
  - intros Hk. assert (keyType_of_string keyType = None) as Hn.
    { unfold keyType_of_string. repeat case_decide; try done; subst;
        exfalso; apply Hk; set_solver. }
    unfold localCiteStats. rw Hn. split; [done|]. by exists TypeError.
  - intros Hk. assert (∃ f, keyType_of_string keyType = Some (Some f)) as [f Hf].
    { rw !elem_of_cons in Hk. destruct Hk as [-> | [-> | [-> | Hk]]]; [by eexists..|].
      by apply elem_of_nil in Hk. }
    exists f, (citeStatsLoop cite_eqb self (Some f) []).
    unfold localCiteStats. rw Hf. repeat split; try done.
    + by apply citeStatsLoop_counted.
    + by rw citeStatsLoop_withField.
Qed.

(** ** Examples *)

(** C2 fails for a paper that cites two works without an author: in the
    author mode the graph has no node for them. *)
Lemma missing_author_not_pooled :
  ¬ pooled (coCiteNetwork id same_ID upper [paperU] true "author" true false true false true
              KWNone DNone false false) unsigned (by_field Fauthor).
Proof.
  intros (G & HG & Hn). vm_compute in HG. injection HG as <-. by vm_compute in Hn.
Qed.

(** The amended C2 at a citation without an author and at one whose
    author is the empty string, for the graph of the paper with the two
    unsigned citations. *)
Lemma missing_field_excluded_witness :
  (nodeType_of_string "author" = Some (by_field Fauthor) ∧
   truthy (getattr unsigned Fauthor) = false ∧
   (getattr unsigned Fauthor = PNone → makeID unsigned (by_field Fauthor) = PNone) ∧
   (∀ cites coreCites,
      ¬ In unsigned (filterCites same_ID upper cites (by_field Fauthor) true false KWNone
                       coreCites)) ∧
   has_node unsignedGraph (makeID unsigned (by_field Fauthor)) = false ∧
   has_node unsignedGraph PNone = false) ∧
  (truthy (getattr nameless Fauthor) = false ∧
   (getattr nameless Fauthor = PNone → makeID nameless (by_field Fauthor) = PNone) ∧
   (∀ cites coreCites,
      ¬ In nameless (filterCites same_ID upper cites (by_field Fauthor) true false KWNone
                       coreCites)) ∧
   has_node unsignedGraph (makeID nameless (by_field Fauthor)) = false ∧
   has_node unsignedGraph PNone = false).
Proof.
  split.
  - split; [reflexivity|]. split; [reflexivity|].
    apply (missing_field_excluded id same_ID upper [paperU; paperN] true "author" true false
             true false true true KWNone DNone false Fauthor unsigned unsignedGraph);
      [reflexivity | reflexivity | left; vm_compute; reflexivity].
  - split; [reflexivity|].
    apply (missing_field_excluded id same_ID upper [paperU; paperN] true "author" true false
             true false true true KWNone DNone false Fauthor nameless unsignedGraph);
      [reflexivity | reflexivity | left; vm_compute; reflexivity].
Defined.

(** C3 fails for the graph of three papers by A and B, by C and A, and by
    Z citing the second under C: the first run adds a node for A, only the
    second one a node for B. *)
Lemma expansion_not_idempotent :
  ∃ G, cociteGraph = Ok G ∧ ¬ expansion_idempotent G threePapers full true.
Proof.
  eexists. split; [vm_compute; reflexivity|].
  intros H.
  edestruct H as [Hn _]; [vm_compute; reflexivity | vm_compute; reflexivity |].
  by vm_compute in Hn.
Qed.

(** The amended C3 at the graph of the three papers. *)
Lemma expandRecs_only_adds_witness :
  wf G0 ∧
  expandRecs G0 threePapers full true = Ok G1 ∧
  expandRecs G1 threePapers full true = Ok G2 ∧
  (number_of_nodes G1 ≤ number_of_nodes G2)%nat ∧
  (number_of_edges G1 ≤ number_of_edges G2)%nat ∧
  (∀ n, has_node G1 n = true → has_node G2 n = true) ∧
  (∀ u v, has_edge G1 u v = true → has_edge G2 u v = true).
Proof.
  assert (Hwf : wf G0).
  { apply (coCiteNetwork_nodes id same_ID upper threePapers true "full" true false true false
             true KWNone DNone false). by vm_compute. }
  assert (H1 : expandRecs G0 threePapers full true = Ok G1) by (vm_compute; reflexivity).
  assert (H2 : expandRecs G1 threePapers full true = Ok G2) by (vm_compute; reflexivity).
  split; [exact Hwf|]. split; [exact H1|]. split; [exact H2|].
  exact (expandRecs_only_adds G0 G1 G2 threePapers full true Hwf H1 H2).
Defined.

(** C4, at the papers by A and B and by A and C, folded in the two
    orders: the dict of attributes of a paper is the dict of every author
    whom it brings into the graph, so that counting A again counts the
    author who came with A as well: B in one order, C in the other. *)
Theorem coAuthNetwork_counts_depend_on_order :
  ∃ G G',
    [paperAB; paperAC] ≡ₚ [paperAC; paperAB] ∧
    coAuthNetwork id [paperAB; paperAC] DNone true false true = Ok G ∧
    coAuthNetwork id [paperAC; paperAB] DNone true false true = Ok G' ∧
    node_count G (PStr "B") = Some (PInt 3) ∧
    node_count G' (PStr "B") = Some (PInt 2) ∧
    node_count G (PStr "C") = Some (PInt 2) ∧
    node_count G' (PStr "C") = Some (PInt 3) ∧
    alist_get (PStr "A") (node G) = alist_get (PStr "B") (node G).
Proof.
  do 2 eexists. split; [apply Permutation_swap|].
  split; [vm_compute; reflexivity|]. split; [vm_compute; reflexivity|].
  by vm_compute.
Qed.

(** C8 fails for the key type ["title"]: the call raises [TypeError],
    which is a [TypeMismatch]. *)
Lemma unknown_keyType_is_no_InvalidArgument :
  ¬ fails_with (localCiteStats same_ID [paperP] false "title") InvalidArgument.
Proof. intros (e & He & Ht). vm_compute in He. injection He as <-. done. Qed.

(** The amended C8 at the key types ["title"] and ["author"]. *)
Lemma localCiteStats_keys_witness :
  ("title" ∉ ["citation"; "journal"; "year"; "author"]) ∧
  localCiteStats same_ID [paperU] false "title" = Raise TypeError ∧
  ("author" ∈ ["journal"; "year"; "author"]) ∧
  localCiteStats same_ID [paperU] false "author" = Ok (StatsDict []).
Proof.
  destruct (localCiteStats_keys same_ID [paperU] false "title") as [H _].
  assert (Hn : "title" ∉ ["citation"; "journal"; "year"; "author"]).
  { rw !not_elem_of_cons. repeat split; try done. apply not_elem_of_nil. }
  split; [exact Hn|]. split; [exact (proj1 (H Hn))|].
  split; [set_solver|]. reflexivity.
Defined.

(** C5 at the keyword ["nature"]: the citation of Smith in NATURE goes,
    the citation of Jones stays. *)
Lemma filter_polarity_witness :
  keyWords_truthy (KWStr "nature") = true ∧
  In smith [smith; jones] ∧
  mentions upper (KWStr "nature") smith ∧
  ¬ In smith (filterCites same_ID upper [smith; jones] full true false (KWStr "nature")
                None) ∧
  ¬ mentions upper (KWStr "nature") jones ∧
  In jones (filterCites same_ID upper [smith; jones] full true false (KWStr "nature")
              None) ∧
  upper_on_ascii upper ∧
  ascii_text (cite_str smith) ∧ Forall ascii_text (keywords (KWStr "nature")) ∧
  (mentions upper (KWStr "nature") smith ↔
   ∃ k, k ∈ keywords (KWStr "nature") ∧ ci_substring k (cite_str smith)).
Proof.
  assert (Hs : mentions upper (KWStr "nature") smith) by (by apply found_mentions).
  assert (Hj : ¬ mentions upper (KWStr "nature") jones).
  { intros H%found_mentions. by vm_compute in H. }
  assert (Hup : upper_on_ascii upper) by done.
  assert (Ha : ascii_text (cite_str smith)).
  { vm_compute. repeat split. }
  assert (Hk : Forall ascii_text (keywords (KWStr "nature"))).
  { constructor; [|done]. vm_compute. repeat split. }
  split; [reflexivity|]. split; [by left|]. split; [exact Hs|].
  split.
  - apply (filter_polarity same_ID upper [smith; jones] full true false (KWStr "nature")
             None smith); [reflexivity | by left | exact Hs].
  - split; [exact Hj|]. split.
    + apply (filter_polarity same_ID upper [smith; jones] full true false
               (KWStr "nature") None jones);
        [reflexivity | right; by left | exact Hj | reflexivity].
    + split; [exact Hup|]. split; [exact Ha|]. split; [exact Hk|].
      apply (filter_polarity same_ID upper [smith; jones] full true false
               (KWStr "nature") None smith); [reflexivity | by left | exact Hup
               | exact Ha | exact Hk].
Defined.

(** C6 at two papers that both cite Smith and Jones. *)
Lemma cocitation_round_trip_witness :
  ∃ G,
    coCiteNetwork id same_ID upper [paperP; paperQ] true "full" true false true false true
      KWNone DNone false false = Ok G ∧
    number_of_nodes G = 2%nat ∧
    number_of_edges G = 1%nat ∧
    has_edge G (PStr "Smith J, 1999, NATURE") (PStr "Jones K, 2001, SCIENCE") = true ∧
    edge_weight G (PStr "Smith J, 1999, NATURE") (PStr "Jones K, 2001, SCIENCE")
      = Some (PInt 2) ∧
    edge_weight G (PStr "Jones K, 2001, SCIENCE") (PStr "Smith J, 1999, NATURE")
      = Some (PInt 2).
Proof.
  apply (cocitation_round_trip id same_ID upper paperP paperQ true "full" full true false
           false true KWNone DNone false smith jones jones smith).
  - reflexivity.
  - reflexivity.
  - reflexivity.
  - discriminate.
  - left. split; reflexivity.
  - right. split; reflexivity.
  - eexists. reflexivity.
  - eexists. reflexivity.
Defined.

(** C7 at a collection of one paper of 2011 and the years 2000 to 2015. *)
Lemma yearSplit_range_witness :
  iterates shelf [paperP] ∧
  ∃ rc, yearSplit shelf [paperP] 2000 2015 true = Ok rc ∧
        ∀ R, R ∈ _Records rc ↔ R ∈ _Records shelf ∧ inYears 2000 2015 R.
Proof.
  assert (Hit : iterates shelf [paperP]).
  { unfold iterates, shelf. simpl. by rw elements_singleton. }
  split; [exact Hit|].
  destruct (yearSplit_range shelf [paperP] 2000 2015 true Hit) as [H _].
  apply H. by left.
Defined.

(** The amended C10 at two collections of one paper each. *)
Lemma size_order_witness :
  _Records shelf ## _Records shelf' ∧
  __len__ shelf = __len__ shelf' ∧
  __len__ shelf ≠ 0%nat ∧
  __le__ shelf shelf' = true ∧ __ge__ shelf shelf' = true ∧ __eq__ shelf shelf' = false.
Proof.
  assert (H1 : _Records shelf ## _Records shelf').
  { unfold shelf, shelf'. simpl. apply disjoint_singleton_l, not_elem_of_singleton.
    discriminate. }
  assert (H2 : __len__ shelf = __len__ shelf').
  { unfold __len__, shelf, shelf', RecordCollection_init. cbn [_Records].
    by rw !size_singleton. }
  assert (H3 : __len__ shelf ≠ 0%nat).
  { unfold __len__, shelf, RecordCollection_init. cbn [_Records].
    by rw size_singleton. }
  split; [exact H1|]. split; [exact H2|]. split; [exact H3|].
  destruct (size_order shelf shelf') as (_ & _ & H). exact (H H1 H2 H3).
Defined.

(** * The container methods *)

Lemma iterates_shelf : iterates shelf [paperP].
Proof.
  unfold iterates, shelf. cbn [_Records RecordCollection_init].
  by rw elements_singleton.
Qed.

Lemma iterates_twins : iterates twins [paperP; reprint].
Proof.
  unfold iterates, twins. cbn [_Records RecordCollection_init].
  rw elements_union_singleton; [|by apply not_elem_of_singleton].
  by rw elements_singleton.
Qed.


Lemma set_Records_same (C : RecordCollection) (s : gset Rec) :
  s = _Records C → set_Records C s = C.
Proof. intros ->. by destruct C. Qed.

Lemma iterates_elem (C : RecordCollection) (order : list Rec) (R : Rec) :
  iterates C order → R ∈ order ↔ R ∈ _Records C.
Proof. intros H. rw H. apply elem_of_elements. Qed.

Lemma iterates_length (C : RecordCollection) (order : list Rec) :
  iterates C order → length order = __len__ C.
Proof. intros H. by rw H. Qed.

Lemma iterates_NoDup (C : RecordCollection) (order : list Rec) :
  iterates C order → NoDup order.
Proof. intros H. rw H. apply NoDup_elements. Qed.

Lemma size_remove (s : gset Rec) (R : Rec) :
  R ∈ s → (size (s ∖ {[R]}) + 1 = size s)%nat.
Proof.
  intros HR.
  assert (Hsub : ({[R]} : gset Rec) ⊆ s) by set_solver.
  pose proof (size_difference _ _ Hsub) as Hd.
  pose proof (subseteq_size _ _ Hsub) as Hle.
  rw size_singleton in Hd. rw size_singleton in Hle. lia.
Qed.


Lemma discard_Records (C : RecordCollection) (R : Rec) :
  _Records (discard C R) = _Records C ∖ {[R]}.
Proof. done. Qed.

Lemma len_discard (C : RecordCollection) (R : Rec) :
  R ∈ _Records C → (__len__ (discard C R) + 1 = __len__ C)%nat.
Proof. intros HR. unfold __len__. rw discard_Records. by apply size_remove. Qed.

Lemma discard_absent (C : RecordCollection) (R : Rec) :
  R ∉ _Records C → discard C R = C.
Proof. intros HR. apply set_Records_same. set_solver. Qed.

(** X1: a record that is not in the collection is added and removed
    again: the collection is as before, in its records, flag, errors
    and name. *)
Theorem add_then_remove (C : RecordCollection) (R : Rec) :
  R ∉ _Records C →
  (let* C1 := add C (ORecord R) in remove C1 R) = Ok C.
Proof.
  intros HR. unfold add, remove. cbn [bind _Records set_Records].
  rw bool_decide_true; [|set_solver].
  f_equal. destruct C as [b e n s]. unfold set_Records. cbn in *. f_equal.
  set_solver.
Qed.

Lemma add_then_remove_witness :
  (let* C1 := add sound (ORecord paperP) in remove C1 paperP) = Ok sound.
Proof.
  apply add_then_remove. unfold sound. cbn [_Records RecordCollection_init].
  apply not_elem_of_empty.
Defined.

(** X2: [remove] raises [KeyError] exactly when the record is absent;
    on a member it returns what [discard] returns, and the collection
    is one record smaller. *)
Theorem remove_spec (C : RecordCollection) (R : Rec) :
  match remove C R with
  | Ok C' =>
      R ∈ _Records C ∧ C' = discard C R ∧ (__len__ C' + 1 = __len__ C)%nat
  | Raise e => (R ∉ _Records C) ∧ e = KeyError ∧ taxonomy e = NotFound
  end.
Proof.
  unfold remove. case_bool_decide as HR.
  - split; [done|]. split; [done|]. by apply len_discard.
  - done.
Qed.

(** X3: after [discard] the record is absent and a second [discard]
    changes nothing; on a member [discard] does what [remove] does, on
    any other record it leaves the collection as it is. *)
Theorem discard_spec (C : RecordCollection) (R : Rec) :
  (R ∉ _Records (discard C R)) ∧
  discard (discard C R) R = discard C R ∧
  (if __contains__ C R then remove C R = Ok (discard C R) else discard C R = C).
Proof.
  split; [rw discard_Records; set_solver|].
  split.
  - apply discard_absent. rw discard_Records. set_solver.
  - unfold __contains__, remove. case_bool_decide as HR; [done|].
    by apply discard_absent.
Qed.

(** X4: [add] raises [RCTypeError] for anything but a record; a record
    is a member afterwards, the collection grows by at most one and
    adding the record again changes nothing. *)
Theorem add_spec (C : RecordCollection) (elem : pyobj) :
  match add C elem with
  | Ok C' =>
      ∃ R, elem = ORecord R ∧ R ∈ _Records C' ∧
           (__len__ C ≤ __len__ C' ≤ __len__ C + 1)%nat ∧
           add C' elem = Ok C'
  | Raise e => (∃ v, elem = OOther v) ∧ e = RCTypeError ∧ taxonomy e = TypeMismatch
  end.
Proof.
  destruct elem as [R|v]; cbn [add].
  - exists R. split; [done|]. split; [cbn; set_solver|].
    split.
    + unfold __len__. cbn [_Records set_Records]. split.
      * apply subseteq_size. set_solver.
      * rw size_union_alt.
        pose proof (subseteq_size ({[R]} ∖ _Records C) {[R]}) as Hle.
        rw size_singleton in Hle. 
        assert (size ({[R]} ∖ _Records C) ≤ 1)%nat by (apply Hle; set_solver).
        lia.
    + f_equal. destruct C as [b e n s]. unfold set_Records. cbn. f_equal. set_solver.
  - split; [by exists v|done].
Qed.

(** X5: on an empty collection [pop] raises [KeyError] and [peak]
    returns [None].  On any other collection [pop] returns a member and
    leaves the collection without it, one record smaller, and [peak]
    returns a member and leaves the collection as it is.  Which member
    [pop] takes is open: each one is taken for some state of the set,
    and it need not be the one that [peak] shows. *)
Theorem pop_spec (C : RecordCollection) (order scan : list Rec) :
  iterates C order → iterates C scan →
  match pop C scan with
  | Ok (R, C') =>
      R ∈ _Records C ∧ (R ∉ _Records C') ∧
      C' = discard C R ∧ (__len__ C' + 1 = __len__ C)%nat ∧
      (∃ R', peak C order = Some R' ∧ R' ∈ _Records C)
  | Raise e =>
      e = KeyError ∧ __len__ C = 0%nat ∧ peak C order = None
  end ∧
  ∀ R, R ∈ _Records C →
       ∃ scan', iterates C scan' ∧ pop C scan' = Ok (R, discard C R).
Proof.
  intros Hit Hsc. pose proof (iterates_length _ _ Hit) as Hlen.
  pose proof (iterates_length _ _ Hsc) as Hlen'. split.
  - destruct scan as [|R rest]; cbn [pop].
    + split; [done|]. split; [done|]. unfold peak.
      unfold __len__ in Hlen'. by rw -Hlen'.
    + assert (HR : R ∈ _Records C) by (apply (iterates_elem _ _ _ Hsc); left).
      split; [done|]. split; [set_solver|]. split; [done|].
      split; [by apply len_discard|].
      unfold peak. unfold __len__ in Hlen'. rw -Hlen'. cbn [length Nat.ltb Nat.leb].
      destruct order as [|R' rest']; [unfold __len__ in Hlen; by rw -Hlen in Hlen'|].
      exists R'. split; [done|]. apply (iterates_elem _ _ _ Hit). left.
  - intros R HR. apply elem_of_elements, elem_of_Permutation in HR as [rest Hrest].
    exists (R :: rest). split; [|done]. unfold iterates. by symmetry.
Qed.

Lemma pop_spec_witness :
  match pop twins [reprint; paperP] with
  | Ok (R, C') =>
      R ∈ _Records twins ∧ (R ∉ _Records C') ∧
      C' = discard twins R ∧ (__len__ C' + 1 = __len__ twins)%nat ∧
      (∃ R', peak twins [paperP; reprint] = Some R' ∧ R' ∈ _Records twins)
  | Raise e =>
      e = KeyError ∧ __len__ twins = 0%nat ∧ peak twins [paperP; reprint] = None
  end ∧
  ∀ R, R ∈ _Records twins →
       ∃ scan', iterates twins scan' ∧ pop twins scan' = Ok (R, discard twins R).
Proof.
  apply (pop_spec twins [paperP; reprint] [reprint; paperP]).
  - apply iterates_twins.
  - unfold iterates. rw -iterates_twins. apply perm_swap.
Defined.

(** X6: [clear] resets the flag and the errors as well as the records
    and keeps the name: a cleared collection that takes up [D] with
    [|=] has the records and the flag of [D], and the errors of [D]
    when [D] is bad. *)
Theorem clear_then_ior (C D : RecordCollection) :
  let C' := __ior__ (clear C) D in
  _Records C' = _Records D ∧ bad C' = bad D ∧
  errors C' = (if bad D then errors D else ∅) ∧ name C' = name C.
Proof.
  unfold __ior__, propagate, clear. cbn.
  destruct (bad D); cbn.
  - split; [set_solver|]. split; [done|]. split; [|done].
    unfold update. by rw (right_id_L ∅ (∪)).
  - split; [set_solver|]. done.
Qed.

(** *** Lookup by id *)

Lemma containsID_In (order : list Rec) (idVal : string) :
  containsID order idVal = true ↔ ∃ R, R ∈ order ∧ Rec_id R = idVal.
Proof.
  induction order as [|R rest IH]; cbn.
  - split; [done|]. intros (R & HR & _). by apply elem_of_nil in HR.
  - destruct (decide (Rec_id R = idVal)) as [He|Hne].
    + split; [|done]. intros _. exists R. split; [left|done].
    + rw IH. split.
      * intros (R' & HR' & He). exists R'. split; [by right|done].
      * intros (R' & HR' & He). apply elem_of_cons in HR' as [->|HR']; [done|].
        by exists R'.
Qed.

Lemma getID_Some (order : list Rec) (idVal : string) (R : Rec) :
  getID order idVal = Some R → R ∈ order ∧ Rec_id R = idVal.
Proof.
  induction order as [|R' rest IH]; cbn; [done|].
  destruct (decide (Rec_id R' = idVal)) as [He|Hne].
  - intros [= <-]. split; [left|done].
  - intros H. destruct (IH H). split; [by right|done].
Qed.

Lemma getID_containsID (order : list Rec) (idVal : string) :
  containsID order idVal = bool_decide (is_Some (getID order idVal)).
Proof.
  induction order as [|R' rest IH]; cbn; [done|].
  destruct (decide (Rec_id R' = idVal)); [|done].
  symmetry. by apply bool_decide_eq_true.
Qed.

Lemma discardID_getID (C : RecordCollection) (order : list Rec) (idVal : string) :
  discardID C order idVal =
  match getID order idVal with Some R => discard C R | None => C end.
Proof.
  induction order as [|R' rest IH]; cbn; [done|].
  by destruct (decide (Rec_id R' = idVal)).
Qed.

(** X7: for every iteration order, [containsID] tells whether some
    record has the id; [getID] returns [None] exactly when none has,
    and otherwise a member with the id. *)
Theorem getID_spec (C : RecordCollection) (order : list Rec) (idVal : string) :
  iterates C order →
  (containsID order idVal = true ↔ holdsID C idVal) ∧
  match getID order idVal with
  | Some R => R ∈ _Records C ∧ Rec_id R = idVal ∧ containsID order idVal = true
  | None => containsID order idVal = false
  end.
Proof.
  intros Hit. split.
  - rw containsID_In. unfold holdsID.
    split; intros (R & HR & He); exists R; split; try done;
      by apply (iterates_elem _ _ _ Hit).
  - rw getID_containsID. destruct (getID order idVal) as [R|] eqn:Hg.
    + apply getID_Some in Hg as [HR He].
      split; [by apply (iterates_elem _ _ _ Hit)|]. split; [done|].
      by apply bool_decide_eq_true.
    + apply bool_decide_eq_false. by intros [? ?].
Qed.

Lemma getID_spec_witness :
  (containsID [paperP] "WOS:4" = true ↔ holdsID shelf "WOS:4") ∧
  match getID [paperP] "WOS:4" with
  | Some R => R ∈ _Records shelf ∧ Rec_id R = "WOS:4" ∧ containsID [paperP] "WOS:4" = true
  | None => containsID [paperP] "WOS:4" = false
  end.
Proof.
  apply (getID_spec shelf [paperP] "WOS:4").
  unfold iterates, shelf. cbn [_Records RecordCollection_init].
  by rw elements_singleton.
Defined.

(** X8: [removeID] raises [KeyError] when no record has the id, and
    otherwise removes the record that [getID] returns, and no other. *)
Theorem removeID_spec (C : RecordCollection) (order : list Rec) (idVal : string) :
  iterates C order →
  match removeID C order idVal with
  | Ok C' =>
      ∃ R, getID order idVal = Some R ∧ C' = discard C R ∧
           (__len__ C' + 1 = __len__ C)%nat
  | Raise e => e = KeyError ∧ taxonomy e = NotFound ∧ ¬ holdsID C idVal
  end.
Proof.
  intros Hit.
  assert (Hsub : ∀ R, R ∈ order → R ∈ _Records C).
  { intros R. by apply (iterates_elem _ _ _ Hit). }
  assert (Hnone : ¬ (∃ R, R ∈ order ∧ Rec_id R = idVal) → ¬ holdsID C idVal).
  { intros Hn (R & HR & He). apply Hn. exists R. split; [|done].
    by apply (iterates_elem _ _ _ Hit). }
  clear Hit. induction order as [|R rest IH]; cbn.
  - split; [done|]. split; [done|]. apply Hnone.
    intros (R & HR & _). by apply elem_of_nil in HR.
  - destruct (decide (Rec_id R = idVal)) as [He|Hne].
    + rw bool_decide_true; [|apply Hsub; left].
      exists R. split; [done|]. split; [done|]. apply len_discard. apply Hsub. left.
    + apply IH.
      * intros R' HR'. apply Hsub. by right.
      * intros Hn. apply Hnone. intros (R' & HR' & He).
        apply elem_of_cons in HR' as [->|HR']; [done|]. apply Hn. by exists R'.
Qed.

Lemma removeID_spec_witness :
  match removeID shelf [paperP] "WOS:9" with
  | Ok C' =>
      ∃ R, getID [paperP] "WOS:9" = Some R ∧ C' = discard shelf R ∧
           (__len__ C' + 1 = __len__ shelf)%nat
  | Raise e => e = KeyError ∧ taxonomy e = NotFound ∧ ¬ holdsID shelf "WOS:9"
  end.
Proof.
  apply (removeID_spec shelf [paperP] "WOS:9").
  unfold iterates, shelf. cbn [_Records RecordCollection_init].
  by rw elements_singleton.
Defined.

(** X9: when no two records share an id, no record has the id after
    [discardID], and the records with another id all stay. *)
Theorem discardID_unique (C : RecordCollection) (order : list Rec) (idVal : string) :
  iterates C order → unique_ids C →
  ¬ holdsID (discardID C order idVal) idVal ∧
  ∀ R, R ∈ _Records C → Rec_id R ≠ idVal → R ∈ _Records (discardID C order idVal).
Proof.
  intros Hit Hu. rw discardID_getID.
  pose proof (getID_spec C order idVal Hit) as [Hc Hg].
  destruct (getID order idVal) as [R0|].
  - destruct Hg as (HR0 & He0 & _). split.
    + intros (R & HR & He). rw discard_Records in HR.
      apply elem_of_difference in HR as [HR Hne]. apply Hne.
      apply elem_of_singleton. apply Hu; congruence.
    + intros R HR Hne. rw discard_Records. apply elem_of_difference.
      split; [done|]. intros ->%elem_of_singleton. done.
  - split; [|done]. intros Hh. apply Hc in Hh. congruence.
Qed.

(** X10: [discardID] removes one record only: when two records have
    the id, one of them is still there afterwards. *)
Theorem discardID_leaves_second (C : RecordCollection) (order : list Rec)
    (idVal : string) (R1 R2 : Rec) :
  iterates C order →
  R1 ∈ _Records C → R2 ∈ _Records C → R1 ≠ R2 →
  Rec_id R1 = idVal → Rec_id R2 = idVal →
  holdsID (discardID C order idVal) idVal ∧
  (__len__ (discardID C order idVal) + 1 = __len__ C)%nat.
Proof.
  intros Hit H1 H2 Hne He1 He2. rw discardID_getID.
  pose proof (getID_spec C order idVal Hit) as [Hc Hg].
  destruct (getID order idVal) as [R0|].
  - destruct Hg as (HR0 & He0 & _). split; [|by apply len_discard].
    destruct (decide (R0 = R1)) as [->|Hd].
    + exists R2. split; [|done]. rw discard_Records. set_solver.
    + exists R1. split; [|done]. rw discard_Records. set_solver.
  - assert (Hh : holdsID C idVal) by by exists R1.
    apply Hc in Hh. congruence.
Qed.

(** *** Bad records *)

Lemma badRecordsLoop_spec (order : list Rec) (acc : gset Rec) (R : Rec) :
  R ∈ badRecordsLoop order acc ↔ R ∈ acc ∨ (R ∈ order ∧ Rec_bad R = true).
Proof.
  revert acc. induction order as [|R' rest IH]; intros acc; cbn.
  - split; [by left|]. intros [?|[H _]]; [done|]. by apply elem_of_nil in H.
  - rw IH. destruct (Rec_bad R') eqn:Hb.
    + rw elem_of_union elem_of_singleton elem_of_cons. split.
      * intros [[?| ->]|[? ?]]; [by left|right|right]; split; auto.
      * intros [?|[[->|?] ?]]; [by left; left|by left; right|by right].
    + rw elem_of_cons. split.
      * intros [?|[? ?]]; [by left|right]; split; auto.
      * intros [?|[[->|?] ?]]; [by left|congruence|by right].
Qed.

(** X11: [BadRecords] and [dropBadRecords] split the collection: the
    first holds the bad records, the second the others, and the sizes
    add up.  The collection that [BadRecords] makes is itself not
    flagged and has no errors; [dropBadRecords] leaves the flag and the
    errors of the collection as they are. *)
Theorem bad_records_partition (C : RecordCollection) (order : list Rec) :
  iterates C order →
  let B := BadRecords C order in
  let G := dropBadRecords C in
  (∀ R, R ∈ _Records B ↔ R ∈ _Records C ∧ Rec_bad R = true) ∧
  (∀ R, R ∈ _Records G ↔ R ∈ _Records C ∧ Rec_bad R = false) ∧
  (__len__ B + __len__ G = __len__ C)%nat ∧
  bad B = false ∧ errors B = ∅ ∧ bad G = bad C ∧ errors G = errors C.
Proof.
  intros Hit B G.
  assert (HB : ∀ R, R ∈ _Records B ↔ R ∈ _Records C ∧ Rec_bad R = true).
  { intros R. unfold B, BadRecords. cbn [_Records RecordCollection_init].
    rw badRecordsLoop_spec. rw (iterates_elem _ _ R Hit). set_solver. }
  assert (HG : ∀ R, R ∈ _Records G ↔ R ∈ _Records C ∧ Rec_bad R = false).
  { intros R. unfold G, dropBadRecords. cbn [_Records set_Records].
    rw elem_of_filter. tauto. }
  split; [done|]. split; [done|]. split; [|done].
  unfold __len__. rw -size_union.
  - f_equal. apply set_eq. intros R. rw elem_of_union HB HG.
    destruct (Rec_bad R); tauto.
  - apply elem_of_disjoint. intros R HR1 HR2.
    apply HB in HR1 as [_ H1]. apply HG in HR2 as [_ H2]. congruence.
Qed.

Lemma bad_records_partition_witness :
  let B := BadRecords shelf [paperP] in
  let G := dropBadRecords shelf in
  (∀ R, R ∈ _Records B ↔ R ∈ _Records shelf ∧ Rec_bad R = true) ∧
  (∀ R, R ∈ _Records G ↔ R ∈ _Records shelf ∧ Rec_bad R = false) ∧
  (__len__ B + __len__ G = __len__ shelf)%nat ∧
  bad B = false ∧ errors B = ∅ ∧ bad G = bad shelf ∧ errors G = errors shelf.
Proof.
  apply (bad_records_partition shelf [paperP]).
  unfold iterates, shelf. cbn [_Records RecordCollection_init].
  by rw elements_singleton.
Defined.

(** *** The hash *)

Lemma sum_ints_from (l : list Z) (a : Z) : fold_left Z.add l a = a + sum_ints l.
Proof.
  unfold sum_ints. revert a. induction l as [|x l IH]; intros a; cbn; [lia|].
  rw (IH (a + x)). rw (IH x). lia.
Qed.

Lemma sum_ints_Permutation (l l' : list Z) : l ≡ₚ l' → sum_ints l = sum_ints l'.
Proof.
  induction 1 as [|x l l' _ IH|x y l|l l' l'' _ IH1 _ IH2].
  - done.
  - unfold sum_ints. cbn. rw !sum_ints_from. lia.
  - unfold sum_ints. cbn. rw !sum_ints_from. lia.
  - congruence.
Qed.

(** X12: collections that [==] holds equal have the same hash, in
    whatever order their records are iterated and whatever their names,
    flags and errors are. *)
Theorem equal_collections_hash_alike (hash_Record : Rec → Z) (hash_int : Z → Z)
    (A B : RecordCollection) (oa ob : list Rec) :
  iterates A oa → iterates B ob →
  __eq__ A B = true →
  __hash__ hash_Record hash_int oa = __hash__ hash_Record hash_int ob.
Proof.
  intros Ha Hb He. unfold __hash__. f_equal. apply sum_ints_Permutation.
  apply fmap_Permutation. unfold iterates in *.
  apply bool_decide_eq_true in He. by rw Ha Hb He.
Qed.

Lemma discardID_unique_witness :
  ¬ holdsID (discardID shelf [paperP] "WOS:4") "WOS:4" ∧
  ∀ R, R ∈ _Records shelf → Rec_id R ≠ "WOS:4" →
       R ∈ _Records (discardID shelf [paperP] "WOS:4").
Proof.
  apply (discardID_unique shelf [paperP] "WOS:4").
  - apply iterates_shelf.
  - intros R R' HR HR' _. unfold shelf in HR, HR'.
    cbn [_Records RecordCollection_init] in HR, HR'.
    apply elem_of_singleton in HR, HR'. congruence.
Defined.

Lemma discardID_leaves_second_witness :
  holdsID (discardID twins [paperP; reprint] "WOS:4") "WOS:4" ∧
  (__len__ (discardID twins [paperP; reprint] "WOS:4") + 1 = __len__ twins)%nat.
Proof.
  apply (discardID_leaves_second twins [paperP; reprint] "WOS:4" paperP reprint).
  - apply iterates_twins.
  - unfold twins. cbn [_Records RecordCollection_init].
    apply elem_of_union_l. by apply elem_of_singleton.
  - unfold twins. cbn [_Records RecordCollection_init].
    apply elem_of_union_r. by apply elem_of_singleton.
  - done.
  - reflexivity.
  - reflexivity.
Defined.

Lemma equal_collections_hash_alike_witness :
  __hash__ (λ R, Z.of_nat (length (createCitationMulti R))) (λ z, z `mod` 7)
    [paperP; reprint] =
  __hash__ (λ R, Z.of_nat (length (createCitationMulti R))) (λ z, z `mod` 7)
    [reprint; paperP].
Proof.
  apply (equal_collections_hash_alike _ _ twins twins).
  - apply iterates_twins.
  - unfold iterates. rw -iterates_twins. apply perm_swap.
  - by apply bool_decide_eq_true.
Defined.

(** * Further properties of the filters, the statistics and core expansion *)

(** ** More on yearSplit *)

(** X13: with missing years dropped [yearSplit] never fails: it returns
    a part of the collection, not flagged and without errors, and a
    second split of that part is the split of the collection by the
    larger start and the smaller end. *)
Theorem yearSplit_twice (self : RecordCollection) (order : list Rec) (a b c d : Z) :
  iterates self order →
  ∃ rc1,
    yearSplit self order a b true = Ok rc1 ∧
    bad rc1 = false ∧ errors rc1 = ∅ ∧ _Records rc1 ⊆ _Records self ∧
    ∀ order1, iterates rc1 order1 →
      ∃ rc2 rc,
        yearSplit rc1 order1 c d true = Ok rc2 ∧
        yearSplit self order (Z.max a c) (Z.min b d) true = Ok rc ∧
        _Records rc2 = _Records rc.
Proof.
  intros Hit.
  assert (Hmem : ∀ R, R ∈ order ↔ R ∈ _Records self) by (intros; by apply iterates_elem).
  unfold yearSplit.
  destruct (yearSplitLoop_ok order a b true ∅) as (s1 & Hs1 & Hin1); [by left|].
  rw Hs1. cbn [bind]. eexists. split; [done|]. cbn [bad errors _Records RecordCollection_init].
  split; [done|]. split; [done|]. split.
  { intros R [HR|[HR _]]%Hin1; [by apply not_elem_of_empty in HR|]. by apply Hmem. }
  intros order1 Hit1.
  assert (Hmem1 : ∀ R, R ∈ order1 ↔ R ∈ s1).
  { intros R. by rw (iterates_elem _ _ R Hit1). }
  destruct (yearSplitLoop_ok order1 c d true ∅) as (s2 & Hs2 & Hin2); [by left|].
  destruct (yearSplitLoop_ok order (Z.max a c) (Z.min b d) true ∅) as (s & Hs & Hin);
    [by left|].
  rw Hs2 Hs. cbn [bind]. eexists _, _. split; [done|]. split; [done|].
  cbn [_Records RecordCollection_init]. apply set_eq. intros R.
  rw Hin2 Hin Hmem1 Hin1 Hmem. unfold inYears.
  split.
  - intros [HR|[[HR|[HR (y & Hy & Hab)]] (y' & Hy' & Hcd)]];
      try by apply not_elem_of_empty in HR.
    right. split; [done|]. exists y. split; [done|].
    assert (y' = y) as -> by congruence. lia.
  - intros [HR|[HR (y & Hy & Hle)]]; [by apply not_elem_of_empty in HR|].
    right. split; [right; split; [done|]|]; exists y; (split; [done|lia]).
Qed.

Lemma yearSplit_twice_witness :
  ∃ rc1,
    yearSplit shelf [paperP] 2000 2020 true = Ok rc1 ∧
    bad rc1 = false ∧ errors rc1 = ∅ ∧ _Records rc1 ⊆ _Records shelf ∧
    ∀ order1, iterates rc1 order1 →
      ∃ rc2 rc,
        yearSplit rc1 order1 2010 2030 true = Ok rc2 ∧
        yearSplit shelf [paperP] (Z.max 2000 2010) (Z.min 2020 2030) true = Ok rc ∧
        _Records rc2 = _Records rc.
Proof. apply (yearSplit_twice shelf [paperP] 2000 2020 2010 2030), iterates_shelf. Defined.

(** ** More on filterCites *)

(** X14: [filterCites] only drops: the citations it returns are
    citations of the list, in their order; none of them is anonymous
    when [dropAnon] is set and each is a journal when [dropNonJournals]
    is set; filtering the result again changes nothing; and with the
    node mode ["full"] and no option set every citation is kept. *)
Theorem filterCites_only_drops (cite_eqb : Citation → Citation → bool)
    (str_upper : string → string)
    (cites : list Citation) (nt : nodeType) (dropAnon dropNonJournals : bool)
    (keyWords : keyWordsArg) (coreCites : option (list Citation)) :
  let kept := filterCites cite_eqb str_upper cites nt dropAnon dropNonJournals keyWords coreCites in
  sublist kept cites ∧
  Forall (passes dropAnon dropNonJournals) kept ∧
  filterCites cite_eqb str_upper kept nt dropAnon dropNonJournals keyWords coreCites = kept ∧
  filterCites cite_eqb str_upper cites full false false KWNone None = cites.
Proof.
  cbv zeta. split; [|split; [|split]].
  - induction cites as [|c cites IH]; cbn [filterCites]; [done|].
    destruct (keepCite _ _ _ _ _ _ _ _); by constructor.
  - induction cites as [|c cites IH]; cbn [filterCites]; [done|].
    destruct (keepCite _ _ _ _ _ _ _ _) eqn:Hk; [|done].
    constructor; [|done]. unfold keepCite in Hk. unfold passes.
    destruct (match nt with full => _ | by_field f => _ end); [done|].
    destruct (dropNonJournals && negb (isJournal c)); [done|].
    by destruct (dropAnon && isAnonymous c).
  - induction cites as [|c cites IH]; cbn [filterCites]; [done|].
    destruct (keepCite _ _ _ _ _ _ _ _) eqn:Hk; [|done].
    cbn [filterCites]. by rw Hk IH.
  - induction cites as [|c cites IH]; cbn [filterCites]; [done|].
    by rw IH.
Qed.

(** ** More on localCiteStats *)

Lemma sum_ints_cons (x : Z) (l : list Z) : sum_ints (x :: l) = x + sum_ints l.
Proof. unfold sum_ints at 1. cbn [fold_left]. by rw sum_ints_from. Qed.

Lemma countKey_sum cite_eqb k d :
  sum_ints (map snd (countKey cite_eqb k d)) = sum_ints (map snd d) + 1.
Proof.
  induction d as [|[k' n] d IH]; cbn [countKey]; [done|].
  destruct (statKey_eqb cite_eqb k k'); cbn [map snd]; rw !sum_ints_cons; [lia|].
  rw IH. lia.
Qed.

Lemma countCites_sum cite_eqb kt cs d :
  sum_ints (map snd (countCites cite_eqb cs kt d)) =
  sum_ints (map snd d) + Z.of_nat (length (List.filter (hasKey kt) cs)).
Proof.
  revert d. induction cs as [|c cs IH]; intros d; cbn [countCites List.filter]; [cbn; lia|].
  destruct kt as [f|]; cbn [hasKey].
  - destruct (getattr c f) eqn:Hc; rw IH;
      [by rw bool_decide_eq_true_2|..];
      rw bool_decide_eq_false_2 // countKey_sum; cbn [negb length]; lia.
  - rw IH countKey_sum. cbn [length]. lia.
Qed.

Lemma citeStatsLoop_sum cite_eqb kt recs d :
  sum_ints (map snd (citeStatsLoop cite_eqb recs kt d)) =
  sum_ints (map snd d) +
  Z.of_nat (length (List.filter (hasKey kt) (flat_map cited recs))).
Proof.
  revert d. induction recs as [|R recs IH]; intros d; cbn [citeStatsLoop flat_map]; [cbn; lia|].
  rw List.filter_app length_app. unfold cited at 1.
  destruct (get R "citations") as [| | | |[|c cs]]; rw IH; try (cbn; lia).
  rw countCites_sum. lia.
Qed.

(** X15: for each of the four key types [localCiteStats] returns a
    table; the pandas friendly form lists the keys and the counts of
    the same table, in its order; and the counts add up to the number
    of citations of the records that have the key: no citation is left
    out or counted twice. *)
Theorem localCiteStats_counts_all (cite_eqb : Citation → Citation → bool)
    (self : list Rec) (keyType : string) (kt : option field) :
  keyType_of_string keyType = Some kt →
  ∃ citesDict,
    localCiteStats cite_eqb self false keyType = Ok (StatsDict citesDict) ∧
    localCiteStats cite_eqb self true keyType =
      Ok (StatsPandas (map fst citesDict) (map snd citesDict)) ∧
    sum_ints (map snd citesDict) =
      Z.of_nat (length (List.filter (hasKey kt) (flat_map cited self))).
Proof.
  intros Hk. unfold localCiteStats. rw Hk. eexists. split; [done|]. split; [done|].
  by rw citeStatsLoop_sum.
Qed.

Lemma localCiteStats_counts_all_witness :
  ∃ citesDict,
    localCiteStats same_ID [paperP; paperQ] false "author" = Ok (StatsDict citesDict) ∧
    localCiteStats same_ID [paperP; paperQ] true "author" =
      Ok (StatsPandas (map fst citesDict) (map snd citesDict)) ∧
    sum_ints (map snd citesDict) =
      Z.of_nat (length (List.filter (hasKey (Some Fauthor)) (flat_map cited [paperP; paperQ]))).
Proof. by apply localCiteStats_counts_all. Defined.

(** ** More on core expansion *)

Lemma expandOuter_absent G weighted ids :
  Forall (λ k, has_node G k = false) ids → expandOuter G weighted ids = Ok G.
Proof.
  induction 1 as [|k ids Hk _ IH]; cbn [expandOuter]; [done|].
  by rw Hk.
Qed.

(** X16: when no identity of a record is a node of the graph,
    [expandRecs] returns the graph as it is. *)
Theorem expandRecs_without_core (G : Graph) (RecCollect : list Rec) (nt : nodeType)
    (weighted : bool) :
  (∀ R c, R ∈ RecCollect → c ∈ createCitationMulti R →
          has_node G (makeID c nt) = false) →
  expandRecs G RecCollect nt weighted = Ok G.
Proof.
  induction RecCollect as [|R rest IH]; intros H; cbn [expandRecs]; [done|].
  assert (H1 : expandOuter G weighted (map (λ c, makeID c nt) (createCitationMulti R)) = Ok G).
  { apply expandOuter_absent, Forall_map, Forall_forall. intros c Hc.
    apply (H R); [left|done]. }
  rw H1. destruct (1 <? _)%nat; cbn [bind]; apply IH; intros R' c' ??; apply (H R');
    by try right.
Qed.

Lemma expandRecs_without_core_witness :
  expandRecs nx_Graph threePapers full true = Ok nx_Graph.
Proof. apply expandRecs_without_core. intros R c _ _. reflexivity. Defined.

(** ** The nodes of the networks *)

Lemma steps_wf P G G' : wf G → steps P G G' → wf G'.
Proof. intros Hwf Hs. by destruct (steps_spec _ _ _ Hs Hwf) as (? & _). Qed.

Lemma steps_has_node P G G' k :
  wf G → steps P G G' → has_node G k = true → has_node G' k = true.
Proof.
  intros Hwf Hs. destruct (steps_spec _ _ _ Hs Hwf) as (_ & Hg & _). apply Hg.
Qed.

Lemma steps_any P G G' : steps P G G' → steps anyNode G G'.
Proof.
  induction 1 as [G | G1 G2 G3 H12 _ IH]; [apply steps_refl|].
  eapply steps_trans; [|exact IH]. apply steps_one.
  destruct H12; by constructor.
Qed.

Lemma incr_count_has_node G n G' k :
  incr_count G n = Ok G' → has_node G' k = has_node G k.
Proof.
  unfold incr_count. destruct (alist_get n (node G)); [|done].
  intros H. bind_inv H. by injection H as <-.
Qed.

Section node_sets.
Variable cite_eqb : Citation → Citation → bool.
Variable str_upper : string → string.

Lemma addCiteNode_has G n count nt nodeInfo fullInfo ccd cv bump G' :
  wf G →
  addCiteNode cite_eqb G n count nt nodeInfo fullInfo ccd cv bump = Ok G' →
  has_node G' (makeID n nt) = true.
Proof.
  intros Hwf. unfold addCiteNode.
  destruct (has_node G (makeID n nt)) eqn:Hn; cbn [negb].
  - destruct (bump && count).
    + intros H. by rw (incr_count_has_node _ _ _ _ H).
    + by intros [= <-].
  - intros H. bind_inv H. unfold new_dict in H. injection H as <-.
    by destruct (add_node_spec (set_ndata G (ndata G ++ [g])%list) (makeID n nt)
                   (length (ndata G)) Hwf) as (_ & _ & ? & _).
Qed.

Lemma addCiteNodes_has G nds count nt nodeInfo fullInfo ccd cv G' ids :
  wf G →
  addCiteNodes cite_eqb G nds count nt nodeInfo fullInfo ccd cv = Ok (G', ids) →
  Forall (λ c, has_node G' (makeID c nt) = true) nds.
Proof.
  revert G G' ids. induction nds as [|n nds IH]; intros G G' ids Hwf; cbn [addCiteNodes].
  - done.
  - intros H. bind_inv H. bind_inv H. destruct g0 as [g1 ids1].
    injection H as <- <-. cbn [fst].
    pose proof (addCiteNode_has _ _ _ _ _ _ _ _ _ _ Hwf H0) as Hn.
    assert (Hs0 : steps anyNode G g).
    { by eapply (addCiteNode_steps cite_eqb anyNode). }
    pose proof (steps_wf _ _ _ Hwf Hs0) as Hwf1.
    destruct (addCiteNodes_steps cite_eqb anyNode _ nds _ _ _ _ _ _ _ _
                (Forall_true _ _ (λ _, I)) H1) as [Hs1 _].
    constructor; [by eapply steps_has_node|]. by eapply IH.
Qed.

Lemma addToNetwork_has G nds count weighted nt nodeInfo fullInfo ccd cv headNd G' :
  wf G →
  addToNetwork cite_eqb G nds count weighted nt nodeInfo fullInfo ccd cv headNd = Ok G' →
  Forall (λ c, has_node G' (makeID c nt) = true) nds ∧
  ∀ h, headNd = Some h → has_node G' (makeID h nt) = true.
Proof.
  intros Hwf. unfold addToNetwork. intros H.
  bind_inv H. destruct g as [g1 hID]. cbn [fst snd] in H.
  bind_inv H. destruct g as [g2 idList]. cbn [fst snd] in H.
  bind_inv H. destruct g as [g3 addedEdges]. cbn [fst snd] in H. injection H as <-.
  assert (Hs1 : steps anyNode G g1 ∧
                ∀ h, headNd = Some h → has_node g1 (makeID h nt) = true).
  { destruct headNd as [h|].
    - bind_inv H0. injection H0 as <- <-. split.
      + by eapply (addCiteNode_steps cite_eqb anyNode).
      + intros ? [= <-]. by eapply addCiteNode_has.
    - injection H0 as <- <-. split; [apply steps_refl|done]. }
  destruct Hs1 as [Hs1 Hh].
  pose proof (steps_wf _ _ _ Hwf Hs1) as Hwf1.
  pose proof (addCiteNodes_has _ _ _ _ _ _ _ _ _ _ Hwf1 H1) as Hnds.
  destruct (addCiteNodes_steps cite_eqb anyNode _ nds _ _ _ _ _ _ _ _
              (Forall_true _ _ (λ _, I)) H1) as [Hs2 ->].
  pose proof (steps_wf _ _ _ Hwf1 Hs2) as Hwf2.
  assert (Hs3 : steps anyNode g2 g3 ∧ Forall (Pedge anyNode) addedEdges).
  { destruct (truthy hID).
    - eapply (linkTo_steps anyNode); [exact I|by apply Forall_true|by constructor|exact H2].
    - destruct (1 <? _)%nat.
      + eapply (linkPairs_steps anyNode); [by apply Forall_true|by constructor|exact H2].
      + injection H2 as <- <-. split; [apply steps_refl|done]. }
  destruct Hs3 as [Hs3 Hedges].
  pose proof (steps_wf _ _ _ Hwf2 Hs3) as Hwf3.
  pose proof (add_edges_from_steps anyNode g3 addedEdges Hedges) as Hs4.
  split.
  - eapply Forall_impl; [exact Hnds|]. intros c Hc. cbn beta in Hc.
    eapply steps_has_node; [exact Hwf3|exact Hs4|].
    eapply steps_has_node; [exact Hwf2|exact Hs3|exact Hc].
  - intros h Hh'. eapply steps_has_node; [exact Hwf3|exact Hs4|].
    eapply steps_has_node; [exact Hwf2|exact Hs3|].
    eapply steps_has_node; [exact Hwf1|exact Hs2|]. by apply Hh.
Qed.

Lemma coCiteLoop_sound P G recs nt dropAnon nodeInfo fullInfo weighted dropNonJournals
    count keyWords coreCites ccd cv G' :
  (∀ R c, R ∈ recs →
          c ∈ filterCites cite_eqb str_upper (cited R) nt dropAnon dropNonJournals keyWords coreCites →
          P (makeID c nt)) →
  coCiteLoop cite_eqb str_upper G recs nt dropAnon nodeInfo fullInfo weighted dropNonJournals
    count keyWords coreCites ccd cv = Ok G' →
  steps P G G'.
Proof.
  revert G. induction recs as [|R recs IH]; intros G HP; cbn [coCiteLoop].
  - intros [= <-]. apply steps_refl.
  - intros H. bind_inv H. eapply steps_trans.
    2: { eapply IH; [|done]. intros R' c' ??. apply (HP R'); [by right|done]. }
    assert (Hc : ∀ c, c ∈ filterCites cite_eqb str_upper (cited R) nt dropAnon dropNonJournals
                            keyWords coreCites → P (makeID c nt)).
    { intros c. apply HP. left. }
    unfold cited in Hc.
    destruct (get R "citations") as [| | | |[|c cs]];
      try (injection H0 as <-; apply steps_refl).
    eapply addToNetwork_steps; [| |done]; [|done].
    apply Forall_forall. intros c' Hc'. by apply Hc.
Qed.

Lemma coCiteLoop_complete G recs nt dropAnon nodeInfo fullInfo weighted dropNonJournals
    count keyWords coreCites ccd cv G' :
  wf G →
  coCiteLoop cite_eqb str_upper G recs nt dropAnon nodeInfo fullInfo weighted dropNonJournals
    count keyWords coreCites ccd cv = Ok G' →
  ∀ R c, R ∈ recs →
         c ∈ filterCites cite_eqb str_upper (cited R) nt dropAnon dropNonJournals keyWords coreCites →
         has_node G' (makeID c nt) = true.
Proof.
  revert G. induction recs as [|R recs IH]; intros G Hwf; cbn [coCiteLoop].
  - intros _ R c HR. by apply elem_of_nil in HR.
  - intros H. bind_inv H.
    pose proof (coCiteLoop_steps cite_eqb str_upper _ _ _ _ _ _ _ _ _ _ _ _ _ _ H) as Hrest.
    assert (Hhead : wf g ∧
              ∀ c, c ∈ filterCites cite_eqb str_upper (cited R) nt dropAnon dropNonJournals
                         keyWords coreCites → has_node g (makeID c nt) = true).
    { unfold cited.
      destruct (get R "citations") as [| | | |[|c cs]];
        try (injection H0 as <-; split; [done|]; intros c' Hc';
             by apply elem_of_nil in Hc').
      split.
      - eapply steps_wf; [exact Hwf|].
        eapply (addToNetwork_steps cite_eqb anyNode); [| |done]; [|done].
        by apply Forall_true.
      - destruct (addToNetwork_has _ _ _ _ _ _ _ _ _ _ _ Hwf H0) as [Hn _].
        intros c' Hc'. by apply (proj1 (Forall_forall _ _) Hn). }
    destruct Hhead as [Hwf1 Hhead].
    intros R' c' [-> | HR']%elem_of_cons Hc'.
    + eapply steps_has_node; [exact Hwf1|exact Hrest|]. by apply Hhead.
    + by eapply IH.
Qed.
End node_sets.

(** X17: the nodes of the graph that [coCiteNetwork] returns (without
    core expansion) are the identities of the citations of the records
    that pass [filterCites], and nothing else. *)
Theorem coCiteNetwork_node_set (normalizeToTag : string → string)
    (cite_eqb : Citation → Citation → bool)
    (str_upper : string → string) (self : list Rec) (dropAnon : bool)
    (mode : string) (nt : nodeType)
    (nodeInfo fullInfo weighted dropNonJournals count : bool) (keyWords : keyWordsArg)
    (detailedCore : detailedArg) (coreOnly : bool) (G : Graph) :
  let coreValues := tagsOf normalizeToTag detailedCore ["AF"; "PY"; "TI"; "SO"; "VL"; "BP"] in
  let core := coreOf cite_eqb self (coreOnly || nonempty coreValues || false) coreOnly in
  nodeType_of_string mode = Some nt →
  coCiteNetwork normalizeToTag cite_eqb str_upper self dropAnon mode nodeInfo fullInfo weighted
    dropNonJournals count keyWords detailedCore coreOnly false = Ok G →
  ∀ k, has_node G k = true ↔
       cocited cite_eqb str_upper self nt dropAnon dropNonJournals keyWords core.2 k.
Proof.
  intros coreValues core Hnt. unfold coCiteNetwork. rw Hnt.
  fold coreValues. fold core. destruct core as [ccd cc]. cbn [snd].
  intros H. bind_inv H. injection H as <-. intros k. split.
  - intros Hk.
    pose proof (coCiteLoop_sound cite_eqb str_upper
                  (cocited cite_eqb str_upper self nt dropAnon dropNonJournals keyWords cc)
                  _ _ _ _ _ _ _ _ _ _ _ _ _ _
                  (λ R c HR Hc, ex_intro _ R (ex_intro _ c (conj HR (conj Hc eq_refl))))
                  H0) as Hs.
    destruct (steps_from_empty _ nx_Graph g eq_refl eq_refl Hs) as [_ Hm]. by apply Hm.
  - intros (R & c & HR & Hc & <-).
    by eapply (coCiteLoop_complete cite_eqb str_upper nx_Graph); [apply wf_nx_Graph|..].
Qed.

Section more_node_sets.
Variable cite_eqb : Citation → Citation → bool.
Variable str_upper : string → string.

Lemma citationLoop_sound P G recs nt dropAnon nodeInfo fullInfo weighted dropNonJournals
    count keyWords coreCites ccd cv G' :
  (∀ R, R ∈ recs →
        keepCite cite_eqb str_upper nt dropAnon dropNonJournals keyWords coreCites
          (createCitation R) = true →
        cited R ≠ [] →
        P (makeID (createCitation R) nt) ∧
        ∀ c, c ∈ filterCites cite_eqb str_upper (cited R) nt dropAnon dropNonJournals keyWords
                   coreCites → P (makeID c nt)) →
  citationLoop cite_eqb str_upper G recs nt dropAnon nodeInfo fullInfo weighted dropNonJournals
    count keyWords coreCites ccd cv = Ok G' →
  steps P G G'.
Proof.
  revert G. induction recs as [|R recs IH]; intros G HP; cbn [citationLoop].
  - intros [= <-]. apply steps_refl.
  - intros H. bind_inv H. eapply steps_trans.
    2: { eapply IH; [|done]. intros R' HR'. apply (HP R'). by right. }
    pose proof (HP R (list_elem_of_here _ _)) as HR. unfold cited in HR.
    cbn [filterCites nonempty] in H0.
    destruct (keepCite cite_eqb str_upper nt dropAnon dropNonJournals keyWords coreCites
                (createCitation R)) eqn:Hk; cbn [nonempty] in H0;
      [|injection H0 as <-; apply steps_refl].
    destruct (get R "citations") as [| | | |[|c cs]];
      try (injection H0 as <-; apply steps_refl).
    destruct HR as [Hh Hc]; [done..|].
    eapply addToNetwork_steps; [| |done].
    + apply Forall_forall. intros c' Hc'. by apply Hc.
    + by intros h [= <-].
Qed.

Lemma citationLoop_complete G recs nt dropAnon nodeInfo fullInfo weighted dropNonJournals
    count keyWords coreCites ccd cv G' :
  wf G →
  citationLoop cite_eqb str_upper G recs nt dropAnon nodeInfo fullInfo weighted dropNonJournals
    count keyWords coreCites ccd cv = Ok G' →
  ∀ R, R ∈ recs →
       keepCite cite_eqb str_upper nt dropAnon dropNonJournals keyWords coreCites
         (createCitation R) = true →
       cited R ≠ [] →
       has_node G' (makeID (createCitation R) nt) = true ∧
       ∀ c, c ∈ filterCites cite_eqb str_upper (cited R) nt dropAnon dropNonJournals keyWords
                  coreCites → has_node G' (makeID c nt) = true.
Proof.
  revert G. induction recs as [|R recs IH]; intros G Hwf; cbn [citationLoop].
  - intros _ R HR. by apply elem_of_nil in HR.
  - intros H. bind_inv H.
    pose proof (citationLoop_steps cite_eqb str_upper _ _ _ _ _ _ _ _ _ _ _ _ _ _ H) as Hrest.
    assert (Hhead : wf g ∧
              (keepCite cite_eqb str_upper nt dropAnon dropNonJournals keyWords coreCites
                 (createCitation R) = true →
               cited R ≠ [] →
               has_node g (makeID (createCitation R) nt) = true ∧
               ∀ c, c ∈ filterCites cite_eqb str_upper (cited R) nt dropAnon dropNonJournals
                          keyWords coreCites → has_node g (makeID c nt) = true)).
    { unfold cited. cbn [filterCites nonempty] in H0.
      destruct (keepCite cite_eqb str_upper nt dropAnon dropNonJournals keyWords coreCites
                  (createCitation R)) eqn:Hk; cbn [nonempty] in H0;
        [|injection H0 as <-; by split].
      destruct (get R "citations") as [| | | |[|c cs]];
        try (injection H0 as <-; by split).
      split.
      - eapply steps_wf; [exact Hwf|].
        eapply (addToNetwork_steps cite_eqb anyNode); [| |done]; [|done].
        by apply Forall_true.
      - intros _ _.
        destruct (addToNetwork_has _ _ _ _ _ _ _ _ _ _ _ _ Hwf H0) as [Hn Hh].
        split; [by apply Hh|].
        intros c' Hc'. by apply (proj1 (Forall_forall _ _) Hn). }
    destruct Hhead as [Hwf1 Hhead].
    intros R' [-> | HR']%elem_of_cons Hk Hne.
    + destruct (Hhead Hk Hne) as [Hh Hc]. split.
      * by eapply steps_has_node.
      * intros c Hc'. eapply steps_has_node; [exact Hwf1|exact Hrest|]. by apply Hc.
    + by eapply IH.
Qed.

(** *** Authors *)

Lemma authNode_steps P G a r count G' :
  P a → authNode G a r count = Ok G' → steps P G G'.
Proof.
  intros Ha. unfold authNode. destruct (negb (has_node G a)).
  - intros [= <-]. by apply steps_one, prim_add_node.
  - destruct count; [apply incr_count_steps|]. intros [= <-]. apply steps_refl.
Qed.

Lemma authNode_has G a r count G' :
  wf G → authNode G a r count = Ok G' → has_node G' a = true.
Proof.
  intros Hwf. unfold authNode. destruct (has_node G a) eqn:Ha; cbn [negb].
  - destruct count.
    + intros H. by rw (incr_count_has_node _ _ _ _ H).
    + by intros [= <-].
  - intros [= <-]. by destruct (add_node_spec G a r Hwf) as (_ & _ & ? & _).
Qed.

Lemma authInner_steps P G auth1 rest r count weighted G' :
  P auth1 → Forall P rest →
  authInner G auth1 rest r count weighted = Ok G' → steps P G G'.
Proof.
  intros H1. revert G. induction rest as [|auth2 rest IH]; intros G Hrest; cbn [authInner].
  - intros [= <-]. apply steps_refl.
  - inversion Hrest as [|?? H2 Hrest']; subst.
    intros H. bind_inv H. bind_inv H.
    eapply steps_trans; [by eapply authNode_steps|].
    eapply steps_trans; [|by eapply IH].
    destruct (has_edge g auth1 auth2 && weighted).
    + by eapply incr_weight_steps.
    + destruct weighted; injection H3 as <-; by apply add_edge_steps.
Qed.

Lemma authOuter_steps P G authsList r count weighted G' :
  Forall P authsList →
  authOuter G authsList r count weighted = Ok G' → steps P G G'.
Proof.
  revert G. induction authsList as [|auth1 rest IH]; intros G Hl; cbn [authOuter].
  - intros [= <-]. apply steps_refl.
  - inversion Hl as [|?? H1 Hrest]; subst.
    intros H. bind_inv H. bind_inv H.
    eapply steps_trans; [by eapply authNode_steps|].
    eapply steps_trans; [by eapply authInner_steps|]. by eapply IH.
Qed.

Lemma authOuter_has G authsList r count weighted G' :
  wf G →
  authOuter G authsList r count weighted = Ok G' →
  Forall (λ a, has_node G' a = true) authsList.
Proof.
  revert G. induction authsList as [|auth1 rest IH]; intros G Hwf; cbn [authOuter].
  - done.
  - intros H. bind_inv H. bind_inv H.
    pose proof (authNode_has _ _ _ _ _ Hwf H0) as Hn.
    assert (Hs0 : steps anyNode G g) by by eapply (authNode_steps anyNode).
    pose proof (steps_wf _ _ _ Hwf Hs0) as Hwf1.
    assert (Hs1 : steps anyNode g g0).
    { eapply (authInner_steps anyNode); [done|by apply Forall_true|done]. }
    pose proof (steps_wf _ _ _ Hwf1 Hs1) as Hwf2.
    assert (Hs2 : steps anyNode g0 G').
    { eapply (authOuter_steps anyNode); [by apply Forall_true|done]. }
    constructor; [|by eapply IH].
    eapply steps_has_node; [exact Hwf2|exact Hs2|].
    eapply steps_has_node; [exact Hwf1|exact Hs1|exact Hn].
Qed.

Lemma coAuthLoop_sound P G recs infoVals weighted dropNonJournals count G' :
  (∀ R auths, R ∈ recs →
     dropNonJournals && negb (isJournal (createCitation R)) = false →
     authsListOf R = Ok (Some auths) → Forall P auths) →
  coAuthLoop G recs infoVals weighted dropNonJournals count = Ok G' →
  steps P G G'.
Proof.
  revert G. induction recs as [|R recs IH]; intros G HP; cbn [coAuthLoop].
  - intros [= <-]. apply steps_refl.
  - intros H. bind_inv H. eapply steps_trans.
    2: { eapply IH; [|done]. intros R' a' ?. apply (HP R'). by right. }
    pose proof (HP R) as HR.
    destruct (dropNonJournals && negb (isJournal (createCitation R)));
      [injection H0 as <-; apply steps_refl|].
    bind_inv H0. destruct g0 as [auths|]; [|injection H0 as <-; apply steps_refl].
    specialize (HR auths (list_elem_of_here _ _) eq_refl H1).
    unfold new_dict in H0.
    eapply steps_trans; [apply steps_one, (prim_ndata _ G)|].
    destruct (1 <? length auths)%nat.
    + by eapply authOuter_steps.
    + destruct auths as [|auth1 ?]; [done|]. eapply authNode_steps; [|done].
      by inversion HR.
Qed.

Lemma coAuthLoop_complete G recs infoVals weighted dropNonJournals count G' :
  wf G →
  coAuthLoop G recs infoVals weighted dropNonJournals count = Ok G' →
  ∀ R auths, R ∈ recs →
    dropNonJournals && negb (isJournal (createCitation R)) = false →
    authsListOf R = Ok (Some auths) →
    Forall (λ a, has_node G' a = true) auths.
Proof.
  revert G. induction recs as [|R recs IH]; intros G Hwf; cbn [coAuthLoop].
  - intros _ R auths HR. by apply elem_of_nil in HR.
  - intros H. bind_inv H.
    assert (Hrest : steps anyNode g G').
    { eapply (coAuthLoop_sound anyNode); [|done]. intros. by apply Forall_true. }
    assert (Hhead : wf g ∧
              ∀ auths, dropNonJournals && negb (isJournal (createCitation R)) = false →
                       authsListOf R = Ok (Some auths) →
                       Forall (λ a, has_node g a = true) auths).
    { destruct (dropNonJournals && negb (isJournal (createCitation R)));
        [injection H0 as <-; by split|].
      bind_inv H0. destruct g0 as [auths|].
      2: { injection H0 as <-. split; [done|]. intros auths _ Ha. congruence. }
      unfold new_dict in H0.
      set (G0 := set_ndata G _) in H0.
      assert (Hwf0 : wf G0) by done.
      destruct (1 <? length auths)%nat eqn:Hlen.
      - split.
        + eapply steps_wf; [exact Hwf0|].
          eapply (authOuter_steps anyNode); [by apply Forall_true|done].
        + intros auths' _ Ha. assert (auths' = auths) as -> by congruence.
          by eapply authOuter_has.
      - destruct auths as [|auth1 rest]; [done|]. split.
        + eapply steps_wf; [exact Hwf0|]. by eapply (authNode_steps anyNode).
        + intros auths' _ Ha. assert (auths' = auth1 :: rest) as -> by congruence.
          destruct rest as [|a2 rest]; [|cbn in Hlen; by destruct rest].
          constructor; [|done]. by eapply authNode_has. }
    destruct Hhead as [Hwf1 Hhead].
    intros R' auths [-> | HR']%elem_of_cons Hd Ha.
    + eapply Forall_impl; [by apply Hhead|]. intros a Hn. cbn beta in Hn.
      by eapply steps_has_node.
    + by eapply IH.
Qed.
End more_node_sets.

(** X18: the nodes of the graph that [citationNetwork] returns (without
    core expansion) are the identities of the records that pass
    [filterCites] themselves and have citations, and of the citations of
    these records that pass it; a record without citations is no node
    unless it is cited. *)
Theorem citationNetwork_node_set (normalizeToTag : string → string)
    (cite_eqb : Citation → Citation → bool)
    (str_upper : string → string) (self : list Rec) (dropAnon : bool)
    (mode : string) (nt : nodeType)
    (nodeInfo fullInfo weighted dropNonJournals count directed : bool)
    (keyWords : keyWordsArg) (detailedCore : detailedArg) (coreOnly : bool) (G : Graph) :
  let coreValues := tagsOf normalizeToTag detailedCore ["AF"; "PY"; "TI"; "SO"; "VL"; "BP"] in
  let core := coreOf cite_eqb self (coreOnly || nonempty coreValues) coreOnly in
  nodeType_of_string mode = Some nt →
  citationNetwork normalizeToTag cite_eqb str_upper self dropAnon mode nodeInfo fullInfo weighted
    dropNonJournals count directed keyWords detailedCore coreOnly false = Ok G →
  ∀ k, has_node G k = true ↔
       citing_or_cited cite_eqb str_upper self nt dropAnon dropNonJournals keyWords core.2 k.
Proof.
  intros coreValues core Hnt. unfold citationNetwork. rw Hnt.
  fold coreValues. fold core. destruct core as [ccd cc]. cbn [snd].
  intros H. bind_inv H. injection H as <-. intros k.
  set (G0 := if directed then nx_DiGraph else nx_Graph) in H0.
  assert (Hn0 : node G0 = []) by by destruct directed.
  assert (Ha0 : adj G0 = []) by by destruct directed.
  assert (Hwf0 : wf G0) by (destruct directed; [apply wf_nx_DiGraph|apply wf_nx_Graph]).
  split.
  - intros Hk.
    assert (Hs : steps (citing_or_cited cite_eqb str_upper self nt dropAnon dropNonJournals
                          keyWords cc) G0 g).
    { eapply citationLoop_sound; [|exact H0]. intros R HR Hkeep Hne. split.
      - exists R. split; [done|]. split; [done|]. split; [done|]. by left.
      - intros c Hc. exists R. split; [done|]. split; [done|]. split; [done|].
        right. by exists c. }
    destruct (steps_from_empty _ G0 g Hn0 Ha0 Hs) as [_ Hm]. by apply Hm.
  - intros (R & HR & Hkeep & Hne & Hk).
    destruct (citationLoop_complete cite_eqb str_upper _ _ _ _ _ _ _ _ _ _ _ _ _ _ Hwf0 H0
                R HR Hkeep Hne) as [Hh Hc].
    destruct Hk as [<- | (c & Hc' & <-)]; [done|]. by apply Hc.
Qed.

(** X19: the nodes of the graph that [coAuthNetwork] returns are the
    authors of the records that are not dropped, and nothing else. *)
Theorem coAuthNetwork_node_set (normalizeToTag : string → string) (self : list Rec)
    (detailedInfo : detailedArg) (weighted dropNonJournals count : bool) (G : Graph) :
  coAuthNetwork normalizeToTag self detailedInfo weighted dropNonJournals count = Ok G →
  ∀ k, has_node G k = true ↔ coauthor self dropNonJournals k.
Proof.
  unfold coAuthNetwork. intros H k. split.
  - intros Hk.
    assert (Hs : steps (coauthor self dropNonJournals) nx_Graph G).
    { eapply coAuthLoop_sound; [|exact H]. intros R auths HR Hd Ha.
      apply Forall_forall. intros a Hin. by exists R, auths. }
    destruct (steps_from_empty _ nx_Graph G eq_refl eq_refl Hs) as [_ Hm]. by apply Hm.
  - intros (R & auths & HR & Hd & Ha & Hin).
    pose proof (coAuthLoop_complete _ _ _ _ _ _ _ wf_nx_Graph H R auths HR Hd Ha) as Hall.
    by apply (proj1 (Forall_forall _ _) Hall).
Qed.

Lemma coCiteNetwork_node_set_witness :
  has_node G0 (makeID jones full) = true ↔
  cocited same_ID upper threePapers full true false KWNone
    (coreOf same_ID threePapers
       (false || nonempty (tagsOf id DNone ["AF"; "PY"; "TI"; "SO"; "VL"; "BP"]) || false)
       false).2 (makeID jones full).
Proof.
  apply (coCiteNetwork_node_set id same_ID upper threePapers true "full" full true false true
           false true KWNone DNone false G0).
  - reflexivity.
  - vm_compute. reflexivity.
Defined.

Lemma citationNetwork_node_set_witness :
  has_node citationGraph (makeID (createCitation paperZ) full) = true ↔
  citing_or_cited same_ID upper threePapers full true false KWNone
    (coreOf same_ID threePapers
       (false || nonempty (tagsOf id DNone ["AF"; "PY"; "TI"; "SO"; "VL"; "BP"]))
       false).2 (makeID (createCitation paperZ) full).
Proof.
  apply (citationNetwork_node_set id same_ID upper threePapers true "full" full true false true
           false true true KWNone DNone false citationGraph).
  - reflexivity.
  - vm_compute. reflexivity.
Defined.

Lemma coAuthNetwork_node_set_witness :
  has_node coauthorGraph (PStr "C") = true ↔ coauthor threePapers false (PStr "C").
Proof.
  apply (coAuthNetwork_node_set id threePapers DNone true false true coauthorGraph).
  vm_compute. reflexivity.
Defined.
